(** * Ism-e-Azam calculator: a shallow embedding of [calculator.js]

    The development follows the layout of the JavaScript source:
    [TextProcessor], [DataLoader], [AbjadCalculator], [NameMatcher] and the
    public API ([initializeCalculator], [calculateAbjad],
    [matchDivineNames]), together with [ABJAD_VALUES], [buildNamesIndex]
    and [initializeApp] of [data-loader.js], the core of [handleCalculate]
    of the page controller, and the two editing keys of the on-screen
    keyboard ([insertCharacter] and the Backspace handler).

    Modelling conventions.
    - A JavaScript string is the list of its UTF-16 code units ([jsstring]);
      [text.split('')], [text[i]] and [text.length] all work on code units.
    - Numbers are integers ([Z]) or [NaN]; the catalog's values, ids and the
      letter weights are integers and are assumed to stay in the range in
      which JavaScript arithmetic on them is exact.
    - A thrown exception is an explicit [Throw] outcome; the module-level
      singletons ([_dataLoader], [_calculator], [_matcher]) form the [World]
      that is threaded through the public API.
    - [performance.now()] and the [responseTimeMs] diagnostic field are left
      out, and so are console output, the rendering of the results and the
      key tables of the keyboard.
    - The text field of the page is its text and its selection; assigning
      the text and [setSelectionRange] behave as on an HTML text control. *)

From Stdlib Require Import ZArith NArith List String Ascii.
From Stdlib Require Import DecimalString DecimalZ.
From stdpp Require Import base numbers option list sorting gmap.

Local Open Scope Z_scope.

(* ====================================================================== *)
(** * JavaScript values *)
(* ====================================================================== *)

(** UTF-16 code units and strings. *)
Abbreviation codeunit := N (only parsing).
Abbreviation jsstring := (list N) (only parsing).

(** An ASCII literal of the source as a [jsstring]. *)
Definition lit (s : string) : jsstring :=
  N_of_ascii <$> list_ascii_of_string s.

(** [String(n)] for an integer [n]: its decimal rendering. *)
Definition decimal (z : Z) : string := NilZero.string_of_int (Z.to_int z).

Inductive jsnum : Type :=
  | NaN : jsnum
  | Int : Z → jsnum.

Global Instance jsnum_eq_dec : EqDecision jsnum.
Proof. solve_decision. Defined.

Definition String_of_number (n : jsnum) : jsstring :=
  match n with
  | NaN => lit "NaN"
  | Int z => lit (decimal z)
  end.

(** [a - b] where [b] is an integer. *)
Definition num_sub (a : jsnum) (b : Z) : jsnum :=
  match a with
  | NaN => NaN
  | Int z => Int (z - b)
  end.

(** The arguments the public entry points are called with. *)
Inductive jsval : Type :=
  | JUndefined : jsval
  | JNull : jsval
  | JNumber : jsnum → jsval
  | JString : jsstring → jsval.

(** [typeof v]. *)
Definition typeof (v : jsval) : string :=
  match v with
  | JUndefined => "undefined"
  | JNull => "object"
  | JNumber _ => "number"
  | JString _ => "string"
  end.

(** [arr.join(sep)] on an array of strings. *)
Fixpoint join (sep : jsstring) (l : list jsstring) : jsstring :=
  match l with
  | [] => []
  | [s] => s
  | s :: rest => s ++ sep ++ join sep rest
  end.

(** ** Exceptions *)

Inductive exn : Type :=
  | Error : jsstring → exn          (* [throw new Error(msg)] *)
  | TypeError : jsstring → exn.     (* raised by the runtime *)

(** [error.message]. *)
Definition message (e : exn) : jsstring :=
  match e with
  | Error m => m
  | TypeError m => m
  end.

Inductive outcome (A : Type) : Type :=
  | Ret : A → outcome A
  | Throw : exn → outcome A.
Arguments Ret {A} _.
Arguments Throw {A} _.

Global Instance outcome_ret : MRet outcome := @Ret.
Global Instance outcome_bind : MBind outcome := fun A B k m =>
  match m with
  | Ret a => k a
  | Throw e => Throw e
  end.

(** The message of the [TypeError] raised by a method call [v.trim()] on a
    value that is not a string (V8 wording; no result below depends on the
    wording). *)
Definition trim_type_error (v : jsval) : exn :=
  match v with
  | JUndefined =>
      TypeError (lit "Cannot read properties of undefined (reading 'trim')")
  | JNull =>
      TypeError (lit "Cannot read properties of null (reading 'trim')")
  | _ => TypeError (lit "text.trim is not a function")
  end.

(* ====================================================================== *)
(** * TEXT PROCESSOR MODULE *)
(* ====================================================================== *)

Module TextProcessor.

(** [ARABIC_DIACRITICS]: an object from a mark to its name. *)
Definition ARABIC_DIACRITICS : list (N * string) :=
  [ (0x064B%N, "FATHATAN"); (0x064C%N, "DAMMATAN"); (0x064D%N, "KASRATAN");
    (0x064E%N, "FATHA"); (0x064F%N, "DAMMA"); (0x0650%N, "KASRA");
    (0x0651%N, "SHADDA"); (0x0652%N, "SUKUN"); (0x0653%N, "MADDAH");
    (0x0654%N, "HAMZA_ABOVE"); (0x0655%N, "HAMZA_BELOW");
    (0x0656%N, "SUBSCRIPT_ALEF"); (0x0657%N, "INVERTED_DAMMA");
    (0x0658%N, "MARK_NOON"); (0x0670%N, "ALEF_WASLA") ]%string.

(** [ARABIC_CHAR_VARIANTS]: an object from a variant to its standard form. *)
Definition ARABIC_CHAR_VARIANTS : list (N * N) :=
  [ (0x0649, 0x0627); (0x0671, 0x0627); (0x0680, 0x0628);
    (0x06BE, 0x0647); (0x06C1, 0x0647); (0x06C2, 0x0647);
    (0x0678, 0x064A); (0x06D2, 0x064A); (0x06D3, 0x064A) ]%N.

Definition VALID_ARABIC_LETTERS : list N :=
  [ 0x0627; 0x0628; 0x062A; 0x062B; 0x062C; 0x062D; 0x062E;
    0x062F; 0x0630; 0x0631; 0x0632; 0x0633; 0x0634; 0x0635;
    0x0636; 0x0637; 0x0638; 0x0639; 0x063A; 0x0641; 0x0642;
    0x0643; 0x0644; 0x0645; 0x0646; 0x0647; 0x0648; 0x064A;
    0x0679; 0x067E; 0x06AF; 0x06BA; 0x06C1; 0x06C3; 0x0688;
    0x0691; 0x0693; 0x0698; 0x06D2; 0x06D4 ]%N.

(** [table[char]] on an object literal keyed by single characters. *)
Fixpoint prop {V} (table : list (N * V)) (char : N) : option V :=
  match table with
  | [] => None
  | (k, v) :: rest => if N.eqb k char then Some v else prop rest char
  end.

(** [this.ARABIC_DIACRITICS[char]] used as a condition (every name in the
    table is a non-empty string, hence truthy). *)
Definition isDiacritic (char : N) : bool :=
  match prop ARABIC_DIACRITICS char with Some _ => true | None => false end.

Definition removeDiacritics (text : jsstring) : jsstring :=
  List.filter (fun char => negb (isDiacritic char)) text.

Definition normalizeVariants (text : jsstring) : jsstring :=
  List.map (fun char => default char (prop ARABIC_CHAR_VARIANTS char)) text.

(** The characters matched by [\s] and stripped by [trim()]. *)
Definition isWhiteSpace (c : N) : bool :=
  ((9 <=? c) && (c <=? 13) || (c =? 32) || (c =? 0xA0) || (c =? 0x1680)
   || (0x2000 <=? c) && (c <=? 0x200A) || (c =? 0x2028) || (c =? 0x2029)
   || (c =? 0x202F) || (c =? 0x205F) || (c =? 0x3000) || (c =? 0xFEFF))%N.

Definition SPACE : N := 32%N.

Fixpoint trimStart (text : jsstring) : jsstring :=
  match text with
  | [] => []
  | c :: rest => if isWhiteSpace c then trimStart rest else text
  end.

Definition trim (text : jsstring) : jsstring :=
  rev (trimStart (rev (trimStart text))).

(** [text.replace(/\s+/g, ' ')]: [inRun] tells that the previous character
    belonged to the run of white space being replaced. *)
Fixpoint collapseSpaces (inRun : bool) (text : jsstring) : jsstring :=
  match text with
  | [] => []
  | c :: rest =>
      if isWhiteSpace c
      then (if inRun then collapseSpaces true rest
            else SPACE :: collapseSpaces true rest)
      else c :: collapseSpaces false rest
  end.

Definition removeSpaces (text : jsstring) : jsstring :=
  collapseSpaces false (trim text).

Definition isArabicUrduChar (char : N) : bool :=
  if bool_decide (char ∈ VALID_ARABIC_LETTERS) then true
  else ((0x0600 <=? char) && (char <=? 0x06FF)
        || (0x0750 <=? char) && (char <=? 0x077F))%N.

Record status : Type := mkStatus {
  success : bool;
  original : jsstring;
  cleaned : jsstring;
  length : nat;
  warnings : list jsstring;
  errors : list jsstring;
  hasDiacritics : bool;
  charCount : nat;
}.

(** Step 4 of [processNameInput]: the loop over [text], with its two
    accumulators [cleaned] and [nonArabicChars]. *)
Fixpoint validateLoop (removeSpacesBetween : bool) (text : jsstring)
    (cleaned : jsstring) (nonArabicChars : list N) : jsstring * list N :=
  match text with
  | [] => (cleaned, nonArabicChars)
  | char :: rest =>
      if N.eqb char SPACE then
        if negb removeSpacesBetween
        then validateLoop removeSpacesBetween rest (cleaned ++ [char]) nonArabicChars
        else validateLoop removeSpacesBetween rest cleaned nonArabicChars
      else if isArabicUrduChar char
      then validateLoop removeSpacesBetween rest (cleaned ++ [char]) nonArabicChars
      else validateLoop removeSpacesBetween rest cleaned (nonArabicChars ++ [char])
  end.

(** The text of the "Non-Arabic characters found" error. *)
Definition nonArabicMessage (nonArabicChars : list N) : jsstring :=
  let charList :=
    join (lit ", ")
      (List.map (fun c => lit "'" ++ [c] ++ lit "'") (take 3 nonArabicChars)) in
  let extra :=
    if (3 <? List.length nonArabicChars)%nat
    then lit " and "
         ++ String_of_number (Int (Z.of_nat (List.length nonArabicChars) - 3))
         ++ lit " more"
    else [] in
  lit "Non-Arabic characters found: " ++ charList ++ extra.

(** [processNameInput(inputString, removeSpacesBetween)] on a string. *)
Definition processNameInput_string (inputString : jsstring)
    (removeSpacesBetween : bool) : jsstring * status :=
  (* Step 1 *)
  let text := removeSpaces inputString in
  match text with
  | [] =>
      ([], mkStatus false inputString [] 0 [] [lit "Empty input"] false 0)
  | _ :: _ =>
      (* Step 2 *)
      let hasDia := existsb isDiacritic text in
      let text := if hasDia then removeDiacritics text else text in
      let warnings :=
        if hasDia then [lit "Diacritical marks removed"] else [] in
      (* Step 3 *)
      let textBefore := text in
      let text := normalizeVariants text in
      let warnings :=
        if bool_decide (textBefore ≠ text)
        then warnings ++ [lit "Character variants normalized"]
        else warnings in
      (* Step 4 *)
      let '(cleaned, nonArabicChars) :=
        validateLoop removeSpacesBetween text [] [] in
      let errors :=
        if (0 <? List.length nonArabicChars)%nat
        then [nonArabicMessage nonArabicChars] else [] in
      (* Step 5 *)
      let cleaned := removeSpaces cleaned in
      match cleaned with
      | [] =>
          ([], mkStatus false inputString [] 0 warnings
                 (errors ++ [lit "No valid Arabic/Urdu characters found"])
                 hasDia 0)
      | _ :: _ =>
          (cleaned,
           mkStatus true inputString cleaned (List.length cleaned) warnings
             errors hasDia (List.length cleaned))
      end
  end.

(** [processNameInput] on any argument: [inputString.trim()] raises a
    [TypeError] unless the argument is a string. *)
Definition processNameInput (inputString : jsval)
    (removeSpacesBetween : bool) : outcome (jsstring * status) :=
  match inputString with
  | JString s => Ret (processNameInput_string s removeSpacesBetween)
  | v => Throw (trim_type_error v)
  end.

(** [validateAndReport(inputString)] on a string: the cleaned text and a
    one-line report (U+2705 is the check mark, U+274C the cross, and
    U+26A0 U+FE0F the warning sign). *)
Definition validateAndReport_string (inputString : jsstring)
    : jsstring * jsstring :=
  let '(cleaned, status) := processNameInput_string inputString false in
  if success status then
    let msg :=
      [0x2705%N] ++ lit " Valid input: '" ++ cleaned ++ lit "' ("
      ++ String_of_number (Int (Z.of_nat (length status)))
      ++ lit " characters)" in
    let msg :=
      if (0 <? List.length (warnings status))%nat
      then msg ++ [10%N] ++ lit "   " ++ [0x26A0%N; 0xFE0F%N] ++ lit "  "
           ++ join (lit "; ") (warnings status)
      else msg in
    (cleaned, msg)
  else
    let msg := [0x274C%N] ++ lit " Invalid input" in
    let msg :=
      if (0 <? List.length (errors status))%nat
      then msg ++ lit ": " ++ join (lit "; ") (errors status)
      else msg in
    ([], msg).

Definition validateAndReport (inputString : jsval)
    : outcome (jsstring * jsstring) :=
  match inputString with
  | JString s => Ret (validateAndReport_string s)
  | v => Throw (trim_type_error v)
  end.

End TextProcessor.

(* ====================================================================== *)
(** * The catalog *)
(* ====================================================================== *)

Module Catalog.

(** One entry of [asmaul_husna.json]. *)
Record DivineName : Type := mkName {
  id : Z;
  arabic_name : jsstring;
  english_name : jsstring;
  abjad_value : Z;
  meaning : jsstring;
}.

Global Instance DivineName_eq_dec : EqDecision DivineName.
Proof. solve_decision. Defined.

(** [buildNamesIndex] of [data-loader.js], as a function of
    [DIVINE_NAMES]; the loop body is [indexName]. *)
Definition indexName (index : gmap jsstring (list DivineName))
    (name : DivineName) : gmap jsstring (list DivineName) :=
  let value := String_of_number (Int (abjad_value name)) in
  let index :=
    match index !! value with
    | None => <[value := []]> index
    | Some _ => index
    end in
  alter (fun names => names ++ [name]) value index.

Definition buildNamesIndex (DIVINE_NAMES : list DivineName)
    : gmap jsstring (list DivineName) :=
  foldl indexName ∅ DIVINE_NAMES.

End Catalog.

(* ====================================================================== *)
(** * DATA LOADER MODULE *)
(* ====================================================================== *)

Module DataLoader.
Import Catalog.

Record t : Type := mk {
  abjadValues : gmap jsstring Z;
  divineNames : list DivineName;
  namesIndex : gmap jsstring (list DivineName);
  loaded : bool;
}.

(** [Object.keys(abjadValues).length > 0 && divineNames.length > 0] *)
Definition isLoaded (abjadValues : gmap jsstring Z)
    (divineNames : list DivineName) : bool :=
  (0 <? size abjadValues)%nat && (0 <? length divineNames)%nat.

(** [new DataLoader()] with the default arguments. *)
Definition new : t := mk ∅ [] ∅ (isLoaded ∅ []).

Definition loadAll (self : t) (abjadValues : gmap jsstring Z)
    (divineNames : list DivineName)
    (namesIndex : gmap jsstring (list DivineName)) : t :=
  mk abjadValues divineNames namesIndex (isLoaded abjadValues divineNames).

(** [this.abjadValues[letter] || null]: a weight of [0] is falsy. *)
Definition getLetterValue (self : t) (letter : jsstring) : outcome (option Z) :=
  if (size (abjadValues self) =? 0)%nat
  then Throw (Error (lit "Abjad values not loaded. Call loadAll() first."))
  else Ret (match abjadValues self !! letter with
            | Some v => if v =? 0 then None else Some v
            | None => None
            end).

(** [this.namesIndex[String(value)] || []] *)
Definition getNamesByValue (self : t) (value : jsnum)
    : outcome (list DivineName) :=
  if (size (namesIndex self) =? 0)%nat
  then Throw (Error (lit "Names index not loaded. Call loadAll() first."))
  else Ret (default [] (namesIndex self !! String_of_number value)).

End DataLoader.

(* ====================================================================== *)
(** * ABJAD CALCULATOR MODULE *)
(* ====================================================================== *)

Module AbjadCalculator.

Record CharacterRecord : Type := mkRecord {
  character : N;
  value : Z;
  position : nat;
}.

Record CalculationResult : Type := mkResult {
  success : bool;
  totalValue : Z;
  inputName : jsval;
  characterBreakdown : list CharacterRecord;
  charCount : nat;
  errors : list jsstring;
  warnings : list jsstring;
}.

(** [!arabicName] *)
Definition falsy (v : jsval) : bool :=
  match v with
  | JUndefined | JNull => true
  | JNumber NaN => true
  | JNumber (Int z) => z =? 0
  | JString s => match s with [] => true | _ => false end
  end.

Definition notFoundWarning (char : N) (position : nat) : jsstring :=
  lit "Character '" ++ [char] ++ lit "' at position "
  ++ String_of_number (Int (Z.of_nat position))
  ++ lit " not found in Abjad table".

(** The [for] loop of [calculateAbjadValue]; [result] carries the
    breakdown and warnings pushed so far, and [totalValue], [charCount]
    stand for the local variables [total] and [charCount]. *)
Fixpoint processChars (loader : DataLoader.t) (chars : jsstring)
    (position : nat) (result : CalculationResult)
    : outcome CalculationResult :=
  match chars with
  | [] => Ret result
  | char :: rest =>
      letterValue ← DataLoader.getLetterValue loader [char];
      match letterValue with
      | None =>
          processChars loader rest (S position)
            (mkResult (success result) (totalValue result) (inputName result)
               (characterBreakdown result) (charCount result) (errors result)
               (warnings result ++ [notFoundWarning char position]))
      | Some letterValue =>
          processChars loader rest (S position)
            (mkResult (success result) (totalValue result + letterValue)
               (inputName result)
               (characterBreakdown result
                  ++ [mkRecord char letterValue position])
               (charCount result + 1) (errors result) (warnings result))
      end
  end.

Definition calculateAbjadValue (loader : DataLoader.t) (arabicName : jsval)
    : outcome CalculationResult :=
  let result := mkResult false 0 arabicName [] 0 [] [] in
  if falsy arabicName
  then Ret (mkResult false 0 arabicName [] 0 [lit "Input name is empty"] [])
  else
    match arabicName with
    | JString s =>
        r ← processChars loader s 0 result;
        if (charCount r =? 0)%nat
        then Ret (mkResult false 0 arabicName (characterBreakdown r) 0
                    [lit "No valid Arabic letters found in input"]
                    (warnings r))
        else Ret (mkResult true (totalValue r) arabicName
                    (characterBreakdown r) (charCount r) [] (warnings r))
    | v =>
        Ret (mkResult false 0 arabicName [] 0
               [lit "Input must be string, got " ++ lit (typeof v)] [])
    end.



End AbjadCalculator.


(* ====================================================================== *)
(** * NAME MATCHER MODULE *)
(* ====================================================================== *)

Module NameMatcher.
Import Catalog.

(** The matcher's own field.  [this.loader] is the shared [_dataLoader]
    singleton, so the methods below take the loader as it is at the time of
    the call.  The property names of [valueToIds] are the decimal renderings
    of the integer values they were stored under and are identified with
    these integers. *)
Record t : Type := mk {
  valueToIds : gmap Z (list Z);
}.

(** The body of the loop of [_buildValueMap]. *)
Definition addName (valueToIds : gmap Z (list Z)) (name : DivineName)
    : gmap Z (list Z) :=
  let value := abjad_value name in
  let nameId := id name in
  let valueToIds :=
    match valueToIds !! value with
    | None => <[value := []]> valueToIds
    | Some _ => valueToIds
    end in
  alter (fun ids => ids ++ [nameId]) value valueToIds.

Definition _buildValueMap (divineNames : list DivineName) : gmap Z (list Z) :=
  foldl addName ∅ divineNames.

(** [new NameMatcher()] *)
Definition new (loader : DataLoader.t) : t :=
  mk (_buildValueMap (DataLoader.divineNames loader)).

Fixpoint _getNameById (divineNames : list DivineName) (nameId : Z)
    : option DivineName :=
  match divineNames with
  | [] => None
  | name :: rest =>
      if id name =? nameId then Some name else _getNameById rest nameId
  end.

Record DirectResult : Type := mkDirect {
  found : bool;
  abjadValue : jsnum;
  count : nat;
  divineNames : list DivineName;
}.

Definition findDirectMatch (loader : DataLoader.t) (abjadValue : jsnum)
    : outcome DirectResult :=
  matchingNames ← DataLoader.getNamesByValue loader abjadValue;
  if (0 <? length matchingNames)%nat
  then Ret (mkDirect true abjadValue (length matchingNames) matchingNames)
  else Ret (mkDirect false abjadValue 0 []).

Record Combination : Type := mkCombination {
  name1 : DivineName;
  name2 : DivineName;
  total : jsnum;
}.

(** The result object of [findTwoNameCombination]; its fields [found],
    [abjadValue] and [count] carry a [p] here, the plain names being those
    of [DirectResult]. *)
Record PairResult : Type := mkPair {
  pfound : bool;
  pabjadValue : jsnum;
  pcount : nat;
  combinations : list Combination;
}.

(** [[a, b].sort()]: the default order compares the string renderings. *)
Definition sortPair (a b : Z) : list Z :=
  if String.ltb (decimal b) (decimal a) then [b; a] else [a; b].

(** [JSON.stringify] on an array of integers. *)
Definition JSON_stringify (l : list Z) : jsstring :=
  lit "[" ++ join (lit ",") ((fun z => String_of_number (Int z)) <$> l)
  ++ lit "]".

Definition canonical (name1Id name2Id : Z) : jsstring :=
  JSON_stringify (sortPair name1Id name2Id).

(** The inner loop over [name2Ids]; the state is the pair
    ([recordedCombinations], [combinationsList]). *)
Fixpoint pairLoop (catalog : list DivineName) (abjadValue : jsnum)
    (name1 : DivineName) (name2Ids : list Z)
    (st : gset jsstring * list Combination)
    : gset jsstring * list Combination :=
  match name2Ids with
  | [] => st
  | name2Id :: rest =>
      let '(recordedCombinations, combinationsList) := st in
      if id name1 =? name2Id
      then pairLoop catalog abjadValue name1 rest st
      else
        let canonical := canonical (id name1) name2Id in
        if bool_decide (canonical ∈ recordedCombinations)
        then pairLoop catalog abjadValue name1 rest st
        else
          let recordedCombinations := {[canonical]} ∪ recordedCombinations in
          match _getNameById catalog name2Id with
          | None =>
              pairLoop catalog abjadValue name1 rest
                (recordedCombinations, combinationsList)
          | Some name2 =>
              let combination :=
                mkCombination
                  (mkName (id name1) (arabic_name name1) (english_name name1)
                     (abjad_value name1) (meaning name1))
                  (mkName name2Id (arabic_name name2) (english_name name2)
                     (abjad_value name2) (meaning name2))
                  abjadValue in
              pairLoop catalog abjadValue name1 rest
                (recordedCombinations, combinationsList ++ [combination])
          end
  end.

(** [availableValues.has(requiredValue)], where [availableValues] is the
    set of the keys of [valueToIds] read back as numbers. *)
Definition has (availableValues : gset Z) (requiredValue : jsnum) : bool :=
  match requiredValue with
  | NaN => false
  | Int z => bool_decide (z ∈ availableValues)
  end.

(** [this.valueToIds[requiredValue]] *)
Definition lookupIds (valueToIds : gmap Z (list Z)) (requiredValue : jsnum)
    : option (list Z) :=
  match requiredValue with
  | NaN => None
  | Int z => valueToIds !! z
  end.

(** The outer loop over [this.loader.divineNames]; [names] is what is left
    of the catalog.  Iterating over an [undefined] [name2Ids] would raise a
    [TypeError]. *)
Fixpoint nameLoop (catalog : list DivineName) (valueToIds : gmap Z (list Z))
    (availableValues : gset Z) (abjadValue : jsnum)
    (names : list DivineName) (st : gset jsstring * list Combination)
    : outcome (gset jsstring * list Combination) :=
  match names with
  | [] => Ret st
  | name1 :: rest =>
      let name1Value := abjad_value name1 in
      let requiredValue := num_sub abjadValue name1Value in
      if has availableValues requiredValue
      then
        match lookupIds valueToIds requiredValue with
        | Some name2Ids =>
            nameLoop catalog valueToIds availableValues abjadValue rest
              (pairLoop catalog abjadValue name1 name2Ids st)
        | None => Throw (TypeError (lit "name2Ids is not iterable"))
        end
      else nameLoop catalog valueToIds availableValues abjadValue rest st
  end.

(** The comparison function given to [combinationsList.sort]. *)
Definition compareCombinations (a b : Combination) : Z :=
  let diff := id (name1 a) - id (name1 b) in
  if negb (diff =? 0) then diff else id (name2 a) - id (name2 b).

(** [Array.prototype.sort] with a comparison function: a stable sort. *)
Fixpoint insertSorted {A} (cmp : A → A → Z) (x : A) (l : list A) : list A :=
  match l with
  | [] => [x]
  | y :: rest =>
      if cmp x y <=? 0 then x :: y :: rest
      else y :: insertSorted cmp x rest
  end.

Definition sort {A} (cmp : A → A → Z) (l : list A) : list A :=
  foldr (insertSorted cmp) [] l.

Definition findTwoNameCombination (self : t) (loader : DataLoader.t)
    (abjadValue : jsnum) (limit : nat) : outcome PairResult :=
  let availableValues : gset Z := dom (valueToIds self) in
  let catalog := DataLoader.divineNames loader in
  '(_, combinationsList) ←
    nameLoop catalog (valueToIds self) availableValues abjadValue catalog
      (∅, []);
  let combinationsList := sort compareCombinations combinationsList in
  let combinations := take limit combinationsList in
  if (0 <? length combinations)%nat
  then Ret (mkPair true abjadValue (length combinations) combinations)
  else Ret (mkPair false abjadValue 0 combinations).

(** The two result shapes, told apart by their [type] field. *)
Inductive MatchResult : Type :=
  | direct_match : DirectResult → MatchResult
  | two_name_combination : PairResult → MatchResult.

Definition findMatch (self : t) (loader : DataLoader.t) (abjadValue : jsnum)
    : outcome MatchResult :=
  directResult ← findDirectMatch loader abjadValue;
  if found directResult
  then Ret (direct_match directResult)
  else
    r ← findTwoNameCombination self loader abjadValue 10;
    Ret (two_name_combination r).

End NameMatcher.

(* ====================================================================== *)
(** * PUBLIC API *)
(* ====================================================================== *)

(** The module-level singletons.  [_calculator] only holds a reference to
    the loader, so it is either absent or present. *)
Record World : Type := mkWorld {
  _dataLoader : option DataLoader.t;
  _calculator : bool;
  _matcher : option NameMatcher.t;
}.

(** The state of a freshly loaded script. *)
Definition initialWorld : World := mkWorld None false None.

(** Computations that read and update the singletons and may throw. *)
Definition M (A : Type) : Type := World → outcome A * World.

Global Instance M_ret : MRet M := fun A a w => (Ret a, w).
Global Instance M_bind : MBind M := fun A B k m w =>
  match m w with
  | (Ret a, w') => k a w'
  | (Throw e, w') => (Throw e, w')
  end.

Definition lift {A} (o : outcome A) : M A := fun w => (o, w).

Definition modify (f : World → World) : M unit := fun w => (Ret tt, f w).

(** [try { body } catch (error) { handler }] *)
Definition tryCatch {A} (body : M A) (handler : exn → M A) : M A := fun w =>
  match body w with
  | (Ret a, w') => (Ret a, w')
  | (Throw e, w') => handler e w'
  end.

Definition getDataLoader : M DataLoader.t := fun w =>
  match _dataLoader w with
  | None =>
      (Ret DataLoader.new,
       mkWorld (Some DataLoader.new) (_calculator w) (_matcher w))
  | Some loader => (Ret loader, w)
  end.

(** [getCalculator()]; [new AbjadCalculator()] calls [getDataLoader] and
    keeps the loader it returns in [this.loader]: the singleton, which
    [calculateAbjad] below reads again through [getDataLoader]. *)
Definition getCalculator : M unit := fun w =>
  if _calculator w then (Ret tt, w)
  else
    match getDataLoader w with
    | (Ret _, w') => (Ret tt, mkWorld (_dataLoader w') true (_matcher w'))
    | (Throw e, w') => (Throw e, w')
    end.

(** [getMatcher()]; [new NameMatcher()] calls [getDataLoader] and builds
    the value map from the catalog held by the loader at that time. *)
Definition getMatcher : M NameMatcher.t := fun w =>
  match _matcher w with
  | Some matcher => (Ret matcher, w)
  | None =>
      match getDataLoader w with
      | (Ret loader, w') =>
          let matcher := NameMatcher.new loader in
          (Ret matcher, mkWorld (_dataLoader w') (_calculator w') (Some matcher))
      | (Throw e, w') => (Throw e, w')
      end
  end.

Definition initializeCalculator (abjadValues : gmap jsstring Z)
    (divineNames : list Catalog.DivineName)
    (namesIndex : gmap jsstring (list Catalog.DivineName)) : M unit :=
  loader ← getDataLoader;
  modify (fun w =>
    mkWorld (Some (DataLoader.loadAll loader abjadValues divineNames namesIndex))
      (_calculator w) (_matcher w)).

(** ** [calculateAbjad] *)

Record BreakdownItem : Type := mkItem {
  position : nat;
  character : N;
  value : Z;
}.

Record Calculation : Type := mkCalculation {
  totalValue : Z;
  inputName : jsval;
  cleanedName : jsval;
  characterBreakdown : list BreakdownItem;
  charCount : nat;
}.

(** [{ success: false, error }] or [{ success: true, ... }] *)
Inductive CalcResponse : Type :=
  | CalcFailure : jsstring → CalcResponse
  | CalcSuccess : Calculation → CalcResponse.

Definition calculateAbjad (name : jsval) : M CalcResponse :=
  tryCatch
    ('(cleanedName, status) ← lift (TextProcessor.processNameInput name false);
     if negb (TextProcessor.success status)
     then mret (CalcFailure
                  (lit "Invalid input: "
                   ++ join (lit ", ") (TextProcessor.errors status)))
     else
       _ ← getCalculator;
       loader ← getDataLoader;
       calcResult ←
         lift (AbjadCalculator.calculateAbjadValue loader (JString cleanedName));
       if negb (AbjadCalculator.success calcResult)
       then mret (CalcFailure
                    (join (lit ", ") (AbjadCalculator.errors calcResult)))
       else
         mret (CalcSuccess
                 (mkCalculation
                    (AbjadCalculator.totalValue calcResult)
                    name
                    (AbjadCalculator.inputName calcResult)
                    (imap (fun i item =>
                             mkItem (i + 1)
                               (AbjadCalculator.character item)
                               (AbjadCalculator.value item))
                       (AbjadCalculator.characterBreakdown calcResult))
                    (AbjadCalculator.charCount calcResult))))
    (fun error => mret (CalcFailure (message error))).

(** ** [parseInt] *)

(** [String(v)] *)
Definition ToString (v : jsval) : jsstring :=
  match v with
  | JUndefined => lit "undefined"
  | JNull => lit "null"
  | JNumber n => String_of_number n
  | JString s => s
  end.

(** The value of the character [c] as a digit. *)
Definition digitValue (radix : Z) (c : N) : option Z :=
  let c := Z.of_N c in
  let d :=
    if (48 <=? c) && (c <=? 57) then Some (c - 48)
    else if (97 <=? c) && (c <=? 122) then Some (c - 97 + 10)
    else if (65 <=? c) && (c <=? 90) then Some (c - 65 + 10)
    else None in
  match d with
  | Some d => if d <? radix then Some d else None
  | None => None
  end.

(** The value of the longest prefix of digits; [acc] is [None] until a
    digit has been read. *)
Fixpoint parseDigits (radix : Z) (s : jsstring) (acc : option Z) : option Z :=
  match s with
  | [] => acc
  | c :: rest =>
      match digitValue radix c with
      | Some d => parseDigits radix rest (Some (default 0 acc * radix + d))
      | None => acc
      end
  end.

(** An optional sign. *)
Definition readSign (s : jsstring) : Z * jsstring :=
  match s with
  | c :: rest =>
      if (c =? 45)%N then (-1, rest)          (* '-' *)
      else if (c =? 43)%N then (1, rest)      (* '+' *)
      else (1, s)
  | [] => (1, s)
  end.

(** The prefix [0x] or [0X] selects radix 16. *)
Definition readRadix (s : jsstring) : Z * jsstring :=
  match s with
  | c1 :: c2 :: rest =>
      if (c1 =? 48)%N && ((c2 =? 120) || (c2 =? 88))%N
      then (16, rest) else (10, s)
  | _ => (10, s)
  end.

(** [parseInt(string)] without a radix: leading white space is skipped, a
    sign is read, then the radix prefix, and the digits are read up to the
    first character that is not one. *)
Definition parseInt_string (s : jsstring) : jsnum :=
  let '(sign, s) := readSign (TextProcessor.trimStart s) in
  let '(radix, s) := readRadix s in
  match parseDigits radix s None with
  | None => NaN
  | Some n => Int (sign * n)
  end.

(** [parseInt(v)]: it converts its argument to a string first, and does not
    throw on the values of [jsval]. *)
Definition parseInt (v : jsval) : outcome jsnum :=
  Ret (parseInt_string (ToString v)).

(** ** [matchDivineNames] *)

Inductive MatchResponse : Type :=
  | MatchFailure (error : jsstring)
  | MatchDirect (found : bool) (divineNames : list Catalog.DivineName)
      (count : nat)
  | MatchPair (found : bool) (abjadValue : jsnum)
      (combinations : list NameMatcher.Combination) (count : nat).

Definition matchDivineNames (abjadValue : jsval) : M MatchResponse :=
  tryCatch
    (match abjadValue with
     | JNull | JUndefined => mret (MatchFailure (lit "Abjad value is required"))
     | _ =>
         parsed ←
           tryCatch
             (n ← lift (parseInt abjadValue); mret (inr n))
             (fun error =>
                mret (inl (MatchFailure (lit "Abjad value must be a number"))));
         match parsed with
         | inl response => mret response
         | inr abjadValue =>
             matcher ← getMatcher;
             loader ← getDataLoader;
             matchResult ← lift (NameMatcher.findMatch matcher loader abjadValue);
             match matchResult with
             | NameMatcher.direct_match r =>
                 mret (MatchDirect (NameMatcher.found r)
                         (NameMatcher.divineNames r) (NameMatcher.count r))
             | NameMatcher.two_name_combination r =>
                 mret (MatchPair (NameMatcher.pfound r) abjadValue
                         (NameMatcher.combinations r) (NameMatcher.pcount r))
             end
         end
     end)
    (fun error => mret (MatchFailure (message error))).

(** ** The page controller *)

(** What [handleCalculate] puts on the page: an error alone, the
    calculation followed by the matches, or the calculation followed by the
    error of the matcher. *)
Inductive Display : Type :=
  | showError : jsstring → Display
  | displayResults : Calculation → MatchResponse → Display
  | displayCalculationThenError : Calculation → jsstring → Display.

(** [a || b] on strings. *)
Definition or_default (a b : jsstring) : jsstring :=
  match a with [] => b | _ => a end.

(** The core of [handleCalculate]: the calls into the calculator made for
    the content [value] of the input field (the loading indicator and
    [appState] are left out). *)
Definition handleCalculate (value : jsstring) : M Display :=
  let name := TextProcessor.trim value in
  match name with
  | [] => mret (showError (lit "Please enter a name"))
  | _ =>
      tryCatch
        (calcResult ← calculateAbjad (JString name);
         match calcResult with
         | CalcFailure error =>
             mret (showError
                     (or_default error (lit "Failed to calculate Abjad value")))
         | CalcSuccess calc =>
             matchResult ← matchDivineNames (JNumber (Int (totalValue calc)));
             match matchResult with
             | MatchFailure error =>
                 mret (displayCalculationThenError calc
                         (or_default error
                            (lit "Failed to find matching Divine Names")))
             | _ => mret (displayResults calc matchResult)
             end
         end)
        (fun error => mret (showError (lit "An error occurred: " ++ message error)))
  end.

(* ====================================================================== *)
(** * The on-screen keyboard *)
(* ====================================================================== *)

Module Keyboard.

(** The text field [nameInput]: its text and its selection.
    [selectionStart] and [selectionEnd] are numbers on a text field and
    [null] on a field whose type has no selection. *)
Record Input : Type := mkInput {
  value : jsstring;
  selectionStart : option nat;
  selectionEnd : option nat;
}.

(** [text.substring(indexStart, indexEnd)]: both indices are clamped to the
    length of the text and swapped when out of order.  The call with one
    argument, [text.substring(indexStart)], has the length of the text as
    its second index. *)
Definition substring (text : jsstring) (indexStart indexEnd : nat)
    : jsstring :=
  let a := Nat.min indexStart (length text) in
  let b := Nat.min indexEnd (length text) in
  take (Nat.max a b - Nat.min a b) (drop (Nat.min a b) text).

(** [text.slice(indexStart, indexEnd)] on indices that are not negative:
    both are clamped, and nothing is returned when they are out of order.
    [text.slice(indexStart)] has the length of the text as its second
    index. *)
Definition slice (text : jsstring) (indexStart indexEnd : nat) : jsstring :=
  let a := Nat.min indexStart (length text) in
  let b := Nat.min indexEnd (length text) in
  take (b - a) (drop a text).

(** [nameInput.value = text]: the caret of a field that has one goes to
    the end of the new text. *)
Definition setValue (text : jsstring) (input : Input) : Input :=
  mkInput text
    ((fun _ => length text) <$> selectionStart input)
    ((fun _ => length text) <$> selectionEnd input).

(** [try { nameInput.focus(); nameInput.setSelectionRange(start, end); }
    catch (e) {}]: the indices are clamped to the length of the text, and
    [start] to [end]; on a field without selection the call throws, the
    exception is caught and nothing changes. *)
Definition setSelectionRange (start end_ : nat) (input : Input) : Input :=
  match selectionStart input with
  | Some _ =>
      let e := Nat.min end_ (length (value input)) in
      let s := Nat.min (Nat.min start (length (value input))) e in
      mkInput (value input) (Some s) (Some e)
  | None => input
  end.

(** [insertCharacter(char)] *)
Definition insertCharacter (char : jsstring) (input : Input) : Input :=
  let start := default (length (value input)) (selectionStart input) in
  let end_ := default start (selectionEnd input) in
  let text := or_default (value input) [] in
  let input :=
    setValue
      (substring text 0 start ++ char ++ substring text end_ (length text))
      input in
  setSelectionRange (start + length char) (start + length char) input.

(** The click handler of the Backspace key. *)
Definition backspace (input : Input) : Input :=
  let start := default 0%nat (selectionStart input) in
  let end_ := default start (selectionEnd input) in
  if (start =? end_)%nat then
    if (0 <? start)%nat then
      let text := value input in
      let input :=
        setValue (slice text 0 (start - 1) ++ slice text end_ (length text))
          input in
      setSelectionRange (start - 1) (start - 1) input
    else input
  else
    let text := value input in
    let input :=
      setValue (slice text 0 start ++ slice text end_ (length text)) input in
    setSelectionRange start start input.

End Keyboard.

(* ====================================================================== *)
(** * Start-up and sample data *)
(* ====================================================================== *)

(** What [initializeApp] of [data-loader.js] does once [loadDivineNames] has
    fetched the catalog [DIVINE_NAMES]: the index is built by
    [buildNamesIndex] and handed to [initializeCalculator] with the weights
    and the catalog. *)
Definition initializeApp (ABJAD_VALUES : gmap jsstring Z)
    (DIVINE_NAMES : list Catalog.DivineName) : M unit :=
  initializeCalculator ABJAD_VALUES DIVINE_NAMES
    (Catalog.buildNamesIndex DIVINE_NAMES).

(** [ABJAD_VALUES] of [data-loader.js]: each key is a single letter, given
    here by its code unit, in the order of the source. *)
Definition ABJAD_VALUES_entries : list (jsstring * Z) :=
  [
    ([0x0627%N], 1); ([0x0628%N], 2); ([0x067E%N], 2);
    ([0x062C%N], 3); ([0x0686%N], 3); ([0x0688%N], 4);
    ([0x062F%N], 4); ([0x06C1%N], 5); ([0x0647%N], 5);
    ([0x0648%N], 6); ([0x0632%N], 7); ([0x0698%N], 7);
    ([0x062D%N], 8); ([0x0637%N], 9); ([0x06CC%N], 10);
    ([0x064A%N], 10); ([0x06A9%N], 20); ([0x0643%N], 20);
    ([0x06AF%N], 20); ([0x0644%N], 30); ([0x0645%N], 40);
    ([0x0646%N], 50); ([0x0633%N], 60); ([0x0639%N], 70);
    ([0x0641%N], 80); ([0x0635%N], 90); ([0x0642%N], 100);
    ([0x0631%N], 200); ([0x0691%N], 200); ([0x0634%N], 300);
    ([0x0679%N], 400); ([0x062A%N], 400); ([0x062B%N], 500);
    ([0x062E%N], 600); ([0x0630%N], 700); ([0x0636%N], 800);
    ([0x0638%N], 900); ([0x063A%N], 1000)
  ].

Definition ABJAD_VALUES : gmap jsstring Z := list_to_map ABJAD_VALUES_entries.

Module Sample.
Import Catalog.

(** alef, lam, heh *)
Definition ALEF : N := 0x0627%N.
Definition BEH : N := 0x0628%N.
Definition LAM : N := 0x0644%N.
Definition HEH : N := 0x0647%N.

Definition weights : gmap jsstring Z :=
  <[ [ALEF] := 1 ]> (<[ [LAM] := 30 ]> (<[ [HEH] := 5 ]> ∅)).

Definition entry (id : Z) (english_name : string) (abjad_value : Z)
    : DivineName :=
  mkName id [] (lit english_name) abjad_value [].

Definition A : DivineName := entry 1 "A" 40.
Definition B : DivineName := entry 2 "B" 26.

Definition C : DivineName := entry 1 "C" 40.
Definition D : DivineName := entry 2 "D" 5.
Definition E : DivineName := entry 3 "E" 10.
Definition F : DivineName := entry 4 "F" 20.

Definition catalog1 : list DivineName := [A; B].
Definition catalog2 : list DivineName := [C; D; E; F].

(** The singletons after a first start-up with [catalog1]. *)
Definition started : World :=
  (initializeApp weights catalog1 initialWorld).2.

(** ... after one search, which creates the matcher, ... *)
Definition searched : World :=
  (matchDivineNames (JNumber (Int 66)) started).2.

(** ... and after a second start-up, with [catalog2]. *)
Definition reloaded : World :=
  (initializeApp weights catalog2 searched).2.

(** A first start-up with [catalog2]. *)
Definition started2 : World :=
  (initializeApp weights catalog2 initialWorld).2.

(** Two entries of value 66. *)
Definition G : DivineName := entry 5 "G" 66.
Definition H : DivineName := entry 6 "H" 66.
Definition catalog3 : list DivineName := [G; H].
Definition started3 : World :=
  (initializeApp weights catalog3 initialWorld).2.

(** Two pairs for 66. *)
Definition P : DivineName := entry 1 "P" 40.
Definition Q : DivineName := entry 2 "Q" 26.
Definition R : DivineName := entry 3 "R" 30.
Definition S : DivineName := entry 4 "S" 36.
Definition catalog4 : list DivineName := [P; Q; R; S].
Definition started4 : World :=
  (initializeApp weights catalog4 initialWorld).2.

(** Two entries with the same id. *)
Definition T : DivineName := entry 2 "T" 5.
Definition catalog5 : list DivineName := [P; T; Q].
Definition started5 : World :=
  (initializeApp weights catalog5 initialWorld).2.

(** The name alef-lam-heh. *)
Definition ALH : jsstring := [ALEF; LAM; HEH].

End Sample.
(* ====================================================================== *)
(** * Properties of the JavaScript primitives *)
(* ====================================================================== *)

Lemma lit_inj s1 s2 : lit s1 = lit s2 → s1 = s2.
Proof.
  unfold lit. revert s2.
  induction s1 as [|a s1 IH]; intros [|b s2]; simpl; try discriminate; auto.
  intros H. injection H as Hab Hs.
  f_equal; [| auto].
  rewrite <- (ascii_N_embedding a), <- (ascii_N_embedding b). congruence.
Qed.

Lemma decimal_inj z1 z2 : decimal z1 = decimal z2 → z1 = z2.
Proof.
  unfold decimal. intros H.
  apply DecimalZ.to_int_inj.
  assert (Hsome : NilZero.int_of_string (NilZero.string_of_int (Z.to_int z1))
                = NilZero.int_of_string (NilZero.string_of_int (Z.to_int z2)))
    by (now rewrite H).
  assert (Hnn : ∀ z, Z.to_int z ≠ Decimal.Pos Decimal.Nil
                   ∧ Z.to_int z ≠ Decimal.Neg Decimal.Nil).
  { intros [|p|p]; simpl; split; try discriminate;
      intros Hp; injection Hp as Hp;
      pose proof (DecimalPos.Unsigned.to_uint_nonnil p); congruence. }
  rewrite !NilZero.isi in Hsome by apply Hnn.
  congruence.
Qed.

Lemma String_of_number_Int_inj z1 z2 :
  String_of_number (Int z1) = String_of_number (Int z2) → z1 = z2.
Proof. simpl. intros H. apply decimal_inj, lit_inj, H. Qed.

(* ====================================================================== *)
(** * Properties of the text processor *)
(* ====================================================================== *)

Module TextProcessorFacts.
Import TextProcessor.

Lemma prop_In {V} (table : list (N * V)) c v :
  prop table c = Some v → In (c, v) table.
Proof.
  induction table as [|[k w] rest IH]; simpl; [discriminate|].
  destruct (N.eqb_spec k c) as [->|_].
  - intros [= ->]. now left.
  - intros H. right. auto.
Qed.

Local Arguments prop : simpl never.
Local Arguments isDiacritic : simpl never.
Local Arguments isWhiteSpace : simpl never.
Local Arguments isArabicUrduChar : simpl never.

(** ** White space *)

Definition headOk (text : jsstring) : Prop :=
  match text with
  | [] => True
  | c :: _ => isWhiteSpace c = false
  end.

(** No white space at either end. *)
Definition trimmed (text : jsstring) : Prop :=
  headOk text ∧ headOk (rev text).

(** Every white-space character is a single [SPACE] that does not follow
    another one ([prevSpace] tells what precedes the text). *)
Fixpoint collapsed (prevSpace : bool) (text : jsstring) : bool :=
  match text with
  | [] => true
  | c :: rest =>
      if isWhiteSpace c
      then N.eqb c SPACE && negb prevSpace && collapsed true rest
      else collapsed false rest
  end.

Lemma trimStart_headOk text : headOk (trimStart text).
Proof.
  induction text as [|c rest IH]; simpl; [exact I|].
  destruct (isWhiteSpace c) eqn:Hc; [exact IH | exact Hc].
Qed.

Lemma trimStart_suffix text : ∃ w, text = w ++ trimStart text.
Proof.
  induction text as [|c rest [w IH]]; simpl.
  - now exists [].
  - destruct (isWhiteSpace c).
    + exists (c :: w). simpl. now f_equal.
    + now exists [].
Qed.

Lemma trimStart_id text : headOk text → trimStart text = text.
Proof. destruct text as [|c rest]; simpl; [easy|]. now intros ->. Qed.

Lemma trim_trimmed text : trimmed (trim text).
Proof.
  unfold trim, trimmed. rewrite rev_involutive.
  split; [| apply trimStart_headOk].
  pose proof (trimStart_headOk text) as Ha.
  destruct (trimStart_suffix (rev (trimStart text))) as [w Hw].
  apply (f_equal (@rev N)) in Hw.
  rewrite rev_involutive, rev_app_distr in Hw.
  destruct (rev (trimStart (rev (trimStart text)))) as [|d u]; [exact I|].
  rewrite Hw in Ha. exact Ha.
Qed.

Lemma trim_id text : trimmed text → trim text = text.
Proof.
  intros [H1 H2]. unfold trim.
  rewrite (trimStart_id text H1), (trimStart_id _ H2).
  apply rev_involutive.
Qed.

Lemma collapseSpaces_collapsed b text :
  collapsed b (collapseSpaces b text) = true.
Proof.
  revert b. induction text as [|c rest IH]; intros b; simpl; [easy|].
  destruct (isWhiteSpace c) eqn:Hc.
  - destruct b; simpl; [apply IH|]. now rewrite IH.
  - simpl. rewrite Hc. apply IH.
Qed.

Lemma collapseSpaces_id b text :
  collapsed b text = true → collapseSpaces b text = text.
Proof.
  revert b. induction text as [|c rest IH]; intros b; simpl; [easy|].
  destruct (isWhiteSpace c) eqn:Hc.
  - rewrite !andb_true_iff, negb_true_iff, N.eqb_eq.
    intros [[-> ->] Hr]. now rewrite (IH true Hr).
  - intros Hr. now rewrite (IH false Hr).
Qed.

Lemma collapseSpaces_snoc b text c :
  isWhiteSpace c = false →
  collapseSpaces b (text ++ [c]) = collapseSpaces b text ++ [c].
Proof.
  intros Hc. revert b.
  induction text as [|d rest IH]; intros b; simpl.
  - now rewrite Hc.
  - destruct (isWhiteSpace d); [destruct b|]; simpl; now rewrite IH.
Qed.

Lemma collapseSpaces_trimmed text :
  trimmed text → trimmed (collapseSpaces false text).
Proof.
  intros [H1 H2]. split.
  - destruct text as [|c rest]; simpl in *; [exact I|]. now rewrite H1.
  - destruct (rev text) as [|c u] eqn:Hrev.
    + apply (f_equal (@rev N)) in Hrev. rewrite rev_involutive in Hrev.
      subst text. exact I.
    + apply (f_equal (@rev N)) in Hrev. rewrite rev_involutive in Hrev.
      subst text. simpl in *.
      rewrite (collapseSpaces_snoc _ _ _ H2), rev_app_distr. exact H2.
Qed.

Lemma removeSpaces_fixed text :
  removeSpaces (removeSpaces text) = removeSpaces text.
Proof.
  unfold removeSpaces.
  rewrite (trim_id (collapseSpaces false (trim text))).
  - apply collapseSpaces_id, collapseSpaces_collapsed.
  - apply collapseSpaces_trimmed, trim_trimmed.
Qed.

(** Characters of the output of [removeSpaces]. *)
Lemma trimStart_Forall (P : N → Prop) text :
  Forall P text → Forall P (trimStart text).
Proof.
  induction 1 as [|c rest Hc Hrest IH]; simpl; [constructor|].
  destruct (isWhiteSpace c); [exact IH | now constructor].
Qed.

Lemma collapseSpaces_Forall (P : N → Prop) b text :
  (∀ c, P c → isWhiteSpace c = true → c = SPACE) →
  Forall P text → Forall P (collapseSpaces b text).
Proof.
  intros HP H. revert b.
  induction H as [|c rest Hc Hrest IH]; intros b; simpl; [constructor|].
  destruct (isWhiteSpace c) eqn:Hw.
  - destruct b; [apply IH|]. constructor; [| apply IH].
    now rewrite <- (HP c Hc Hw).
  - constructor; [exact Hc | apply IH].
Qed.

Lemma removeSpaces_Forall (P : N → Prop) text :
  (∀ c, P c → isWhiteSpace c = true → c = SPACE) →
  Forall P text → Forall P (removeSpaces text).
Proof.
  intros HP H. unfold removeSpaces, trim.
  apply collapseSpaces_Forall; [exact HP|].
  apply Forall_rev, trimStart_Forall, Forall_rev, trimStart_Forall, H.
Qed.


(** ** The character tables *)

(** A character that is neither a diacritical mark nor a variant form. *)
Definition standard (c : N) : Prop :=
  isDiacritic c = false ∧ prop ARABIC_CHAR_VARIANTS c = None.

Lemma variant_target_standard c t :
  prop ARABIC_CHAR_VARIANTS c = Some t → standard t.
Proof.
  intros H. apply prop_In in H.
  assert (Hall : Forall (fun kv : N * N => standard (snd kv))
                   ARABIC_CHAR_VARIANTS).
  { unfold ARABIC_CHAR_VARIANTS. repeat constructor. }
  rewrite List.Forall_forall in Hall. exact (Hall _ H).
Qed.

Lemma normalizeVariants_standard text :
  Forall (fun c => isDiacritic c = false) text →
  Forall standard (normalizeVariants text).
Proof.
  induction 1 as [|c rest Hc Hrest IH]; simpl; constructor; [| exact IH].
  destruct (prop ARABIC_CHAR_VARIANTS c) as [t|] eqn:Ht; simpl.
  - eapply variant_target_standard, Ht.
  - now split.
Qed.

Lemma normalizeVariants_id text :
  Forall standard text → normalizeVariants text = text.
Proof.
  induction 1 as [|c rest [_ Hc] Hrest IH]; simpl; [easy|].
  now rewrite Hc, IH.
Qed.

Lemma removeDiacritics_none text :
  Forall (fun c => isDiacritic c = false) (removeDiacritics text).
Proof.
  unfold removeDiacritics. apply List.Forall_forall. intros c Hc.
  apply filter_In in Hc. now apply negb_true_iff.
Qed.

Lemma existsb_isDiacritic_false text :
  existsb isDiacritic text = false ↔
  Forall (fun c => isDiacritic c = false) text.
Proof.
  induction text as [|c rest IH]; simpl.
  - split; [constructor | easy].
  - rewrite orb_false_iff, IH. split.
    + intros [? ?]. now constructor.
    + intros H. inversion H; subst. now split.
Qed.

Lemma arabic_not_space c :
  isArabicUrduChar c = true → isWhiteSpace c = false.
Proof.
  unfold isArabicUrduChar. case_bool_decide as Hin.
  - intros _.
    assert (Hall : Forall (fun c => isWhiteSpace c = false)
                     VALID_ARABIC_LETTERS).
    { unfold VALID_ARABIC_LETTERS. repeat constructor. }
    rewrite List.Forall_forall in Hall. apply Hall.
    now apply list_elem_of_In in Hin.
  - unfold isWhiteSpace.
    rewrite orb_true_iff, !andb_true_iff, !N.leb_le.
    intros Hrange.
    rewrite !orb_false_iff, !andb_false_iff, !N.leb_gt, !N.eqb_neq.
    lia.
Qed.

(** ** The validation loop *)

(** The characters that [validateLoop] appends to [cleaned]. *)
Definition kept (removeSpacesBetween : bool) (c : N) : bool :=
  if N.eqb c SPACE then negb removeSpacesBetween else isArabicUrduChar c.

Definition rejected (c : N) : bool :=
  negb (N.eqb c SPACE) && negb (isArabicUrduChar c).

Lemma validateLoop_filter b text cleaned nonArabicChars :
  validateLoop b text cleaned nonArabicChars
  = (cleaned ++ List.filter (kept b) text,
     nonArabicChars ++ List.filter rejected text).
Proof.
  revert cleaned nonArabicChars.
  induction text as [|c rest IH]; intros cleaned nonArabicChars; simpl.
  - now rewrite !app_nil_r.
  - unfold kept, rejected.
    destruct (N.eqb c SPACE); simpl.
    + destruct b; simpl; rewrite IH; [easy|]. now rewrite <- app_assoc.
    + destruct (isArabicUrduChar c); simpl; rewrite IH;
        now rewrite <- app_assoc.
Qed.

Lemma kept_space b c : kept b c = true → isWhiteSpace c = true → c = SPACE.
Proof.
  unfold kept. destruct (N.eqb_spec c SPACE) as [->|_]; [easy|].
  intros H%arabic_not_space. congruence.
Qed.

Lemma filter_all {A} (f : A → bool) l :
  Forall (fun x => f x = true) l → List.filter f l = l.
Proof.
  induction 1 as [|x l Hx Hl IH]; simpl; [easy|]. now rewrite Hx, IH.
Qed.

Lemma filter_none {A} (f : A → bool) l :
  Forall (fun x => f x = false) l → List.filter f l = [].
Proof.
  induction 1 as [|x l Hx Hl IH]; simpl; [easy|]. now rewrite Hx.
Qed.

(** ** The cleaned text *)

(** What the text returned by [processNameInput] looks like. *)
Definition normal (b : bool) (text : jsstring) : Prop :=
  removeSpaces text = text
  ∧ Forall (fun c => standard c ∧ kept b c = true) text.

Lemma normal_nil b : normal b [].
Proof. split; [reflexivity | constructor]. Qed.

Lemma processNameInput_normal x b :
  normal b (fst (processNameInput_string x b)).
Proof.
  unfold processNameInput_string.
  destruct (removeSpaces x) as [|c0 text0] eqn:Htext; [apply normal_nil|].
  set (text := c0 :: text0).
  set (text1 := if existsb isDiacritic text then removeDiacritics text
                else text).
  rewrite validateLoop_filter. cbn [app].
  destruct (removeSpaces (List.filter (kept b) (normalizeVariants text1)))
    as [|c1 rest] eqn:Hclean; [apply normal_nil|].
  simpl fst. rewrite <- Hclean. split.
  - apply removeSpaces_fixed.
  - apply removeSpaces_Forall.
    + intros c [_ Hk]. now apply kept_space with b.
    + assert (Hstd : Forall standard (normalizeVariants text1)).
      { apply normalizeVariants_standard. subst text1.
        destruct (existsb isDiacritic text) eqn:He.
        - apply removeDiacritics_none.
        - now apply existsb_isDiacritic_false. }
      rewrite List.Forall_forall in Hstd. apply List.Forall_forall.
      intros c Hc. apply filter_In in Hc as [Hin Hk]. split; auto.
Qed.

Lemma processNameInput_on_normal text b :
  normal b text →
  fst (processNameInput_string text b) = text
  ∧ cleaned (snd (processNameInput_string text b)) = text.
Proof.
  intros [Hsp Hall].
  unfold processNameInput_string. rewrite Hsp.
  destruct text as [|c0 text0]; [easy|].
  set (text := c0 :: text0) in *.
  assert (Hdia : existsb isDiacritic text = false).
  { apply existsb_isDiacritic_false. eapply Forall_impl; [exact Hall|].
    now intros c [[Hd _] _]. }
  rewrite Hdia.
  assert (Hvar : normalizeVariants text = text).
  { apply normalizeVariants_id. eapply Forall_impl; [exact Hall|].
    now intros c [Hs _]. }
  rewrite Hvar, validateLoop_filter. cbn [app].
  rewrite (filter_all (kept b) text), Hsp
    by (eapply Forall_impl; [exact Hall|]; now intros c [_ Hk]).
  easy.
Qed.

(** C6. Normalizer idempotence: running [processNameInput] again on the
    cleaned text it returned gives back the same cleaned text, both as the
    returned string and as the [cleaned] field of the status; this holds for
    every input string and for either setting of [removeSpacesBetween]. *)
Theorem normalize_idempotent (x : jsstring) (removeSpacesBetween : bool) :
  let cleaned1 := fst (processNameInput_string x removeSpacesBetween) in
  fst (processNameInput_string cleaned1 removeSpacesBetween) = cleaned1
  ∧ cleaned (snd (processNameInput_string cleaned1 removeSpacesBetween))
    = cleaned1.
Proof.
  intros cleaned1. apply processNameInput_on_normal.
  apply processNameInput_normal.
Qed.

End TextProcessorFacts.

(* ====================================================================== *)
(** * More on the text processor *)
(* ====================================================================== *)

Module TextProcessorMore.
Import TextProcessor TextProcessorFacts.

Local Arguments prop : simpl never.
Local Arguments isDiacritic : simpl never.
Local Arguments isWhiteSpace : simpl never.
Local Arguments isArabicUrduChar : simpl never.

(** ** [removeSpaces] *)

Definition notSpace (c : N) : bool := negb (isWhiteSpace c).

Lemma trimStart_letters text :
  List.filter notSpace (trimStart text) = List.filter notSpace text.
Proof.
  induction text as [|c rest IH]; simpl; [done|]. unfold notSpace at 2.
  destruct (isWhiteSpace c) eqn:Hc; simpl; [exact IH|].
  unfold notSpace. now rewrite Hc.
Qed.

Lemma filter_rev {A} (f : A → bool) l :
  List.filter f (rev l) = rev (List.filter f l).
Proof.
  induction l as [|x l IH]; simpl; [done|].
  rewrite List.filter_app, IH. simpl.
  destruct (f x); simpl; [done | now rewrite app_nil_r].
Qed.

Lemma trim_letters text :
  List.filter notSpace (trim text) = List.filter notSpace text.
Proof.
  unfold trim.
  rewrite filter_rev, trimStart_letters, filter_rev, rev_involutive.
  apply trimStart_letters.
Qed.

Lemma isWhiteSpace_SPACE : isWhiteSpace SPACE = true.
Proof. reflexivity. Qed.

Lemma collapseSpaces_letters b text :
  List.filter notSpace (collapseSpaces b text) = List.filter notSpace text.
Proof.
  revert b. induction text as [|c rest IH]; intros b; simpl; [done|].
  unfold notSpace at 2.
  destruct (isWhiteSpace c) eqn:Hc; simpl.
  - destruct b; [apply IH|].
    change (List.filter notSpace (SPACE :: ?l)) with (List.filter notSpace l).
    apply IH.
  - unfold notSpace at 1. rewrite Hc. simpl. now rewrite IH.
Qed.

Lemma trimStart_all_spaces text :
  forallb isWhiteSpace text = true → trimStart text = [].
Proof.
  induction text as [|c rest IH]; simpl; [done|].
  destruct (isWhiteSpace c); simpl; [exact IH | discriminate].
Qed.

Lemma filter_notSpace_nil text :
  List.filter notSpace text = [] → forallb isWhiteSpace text = true.
Proof.
  induction text as [|c rest IH]; simpl; [done|]. unfold notSpace at 1.
  destruct (isWhiteSpace c); simpl; [exact IH | discriminate].
Qed.

(** X1. [removeSpaces] puts a text in normal form: the result has no white
    space at either end, its only white space is single U+0020 characters
    that never follow one another, a second pass changes nothing, the other
    characters are kept in their order, and the result is empty exactly when
    the text is made of white space only. *)
Theorem removeSpaces_normal_form (text : jsstring) :
  trimmed (removeSpaces text)
  ∧ collapsed false (removeSpaces text) = true
  ∧ removeSpaces (removeSpaces text) = removeSpaces text
  ∧ List.filter notSpace (removeSpaces text) = List.filter notSpace text
  ∧ (removeSpaces text = [] ↔ forallb isWhiteSpace text = true).
Proof.
  assert (Hletters : List.filter notSpace (removeSpaces text)
                     = List.filter notSpace text).
  { unfold removeSpaces. now rewrite collapseSpaces_letters, trim_letters. }
  split; [apply collapseSpaces_trimmed, trim_trimmed|].
  split; [apply collapseSpaces_collapsed|].
  split; [apply removeSpaces_fixed|].
  split; [exact Hletters|].
  split.
  - intros Hnil. apply filter_notSpace_nil. now rewrite <- Hletters, Hnil.
  - intros Hall. unfold removeSpaces, trim.
    now rewrite (trimStart_all_spaces _ Hall).
Qed.

(** ** Diacritical marks and variants *)

Definition normalizeChar (c : N) : N :=
  default c (prop ARABIC_CHAR_VARIANTS c).

Definition isVariant (c : N) : bool :=
  match prop ARABIC_CHAR_VARIANTS c with Some _ => true | None => false end.

Lemma variant_key_not_diacritic c t :
  prop ARABIC_CHAR_VARIANTS c = Some t → isDiacritic c = false.
Proof.
  intros H. apply prop_In in H.
  assert (Hall : Forall (fun kv : N * N => isDiacritic (fst kv) = false)
                   ARABIC_CHAR_VARIANTS).
  { unfold ARABIC_CHAR_VARIANTS. repeat constructor. }
  rewrite List.Forall_forall in Hall. exact (Hall _ H).
Qed.

Lemma normalizeChar_fixed c : normalizeChar (normalizeChar c) = normalizeChar c.
Proof.
  unfold normalizeChar at 2 3.
  destruct (prop ARABIC_CHAR_VARIANTS c) as [t|] eqn:Hc; simpl.
  - apply variant_target_standard in Hc as [_ Ht].
    unfold normalizeChar. now rewrite Ht.
  - unfold normalizeChar. now rewrite Hc.
Qed.

Lemma isDiacritic_normalizeChar c :
  isDiacritic (normalizeChar c) = isDiacritic c.
Proof.
  unfold normalizeChar.
  destruct (prop ARABIC_CHAR_VARIANTS c) as [t|] eqn:Hc; simpl; [|done].
  rewrite (variant_key_not_diacritic _ _ Hc).
  now apply variant_target_standard in Hc as [Ht _].
Qed.

Lemma variant_target_differs c t :
  prop ARABIC_CHAR_VARIANTS c = Some t → t ≠ c.
Proof.
  intros Hc ->. apply variant_target_standard in Hc as Hstd.
  destruct Hstd as [_ Hnone]. congruence.
Qed.

(** X2. Steps 2 and 3 of the normalizer: [removeDiacritics] leaves no
    diacritical mark and a second pass changes nothing; [normalizeVariants]
    keeps the length of the text and a second pass changes nothing (no
    standard form is itself a variant); and the two steps can be swapped. *)
Theorem diacritics_and_variants (text : jsstring) :
  Forall (fun c => isDiacritic c = false) (removeDiacritics text)
  ∧ removeDiacritics (removeDiacritics text) = removeDiacritics text
  ∧ normalizeVariants (normalizeVariants text) = normalizeVariants text
  ∧ List.length (normalizeVariants text) = List.length text
  ∧ removeDiacritics (normalizeVariants text)
    = normalizeVariants (removeDiacritics text).
Proof.
  split; [apply removeDiacritics_none|].
  split.
  { unfold removeDiacritics at 1. apply filter_all.
    eapply Forall_impl; [apply removeDiacritics_none|].
    intros c Hc. simpl in Hc. now rewrite Hc. }
  split.
  { unfold normalizeVariants. rewrite List.map_map.
    apply List.map_ext. intros c. apply normalizeChar_fixed. }
  split; [apply List.length_map|].
  unfold removeDiacritics, normalizeVariants.
  induction text as [|c rest IH]; simpl; [done|].
  fold (normalizeChar c). rewrite isDiacritic_normalizeChar.
  destruct (isDiacritic c); simpl; now rewrite IH.
Qed.

(** X3. [isArabicUrduChar] is the range test alone: the list
    [VALID_ARABIC_LETTERS] lies inside the first range and never decides.
    So every diacritical mark counts as a valid character, which is why the
    marks are removed before the validation, and so do the Arabic comma
    U+060C and the digit U+0660. *)
Theorem isArabicUrduChar_ranges (c : N) :
  (isArabicUrduChar c = true
   ↔ (0x0600 ≤ c ≤ 0x06FF ∨ 0x0750 ≤ c ≤ 0x077F)%N)
  ∧ (isDiacritic c = true → isArabicUrduChar c = true)
  ∧ isArabicUrduChar 0x060C%N = true
  ∧ isArabicUrduChar 0x0660%N = true.
Proof.
  assert (Hiff : isArabicUrduChar c = true
                 ↔ (0x0600 ≤ c ≤ 0x06FF ∨ 0x0750 ≤ c ≤ 0x077F)%N).
  { unfold isArabicUrduChar. case_bool_decide as Hin.
    - split; [intros _ | done]. left.
      assert (Hall : Forall (fun c => (0x0600 ≤ c ≤ 0x06FF)%N)
                       VALID_ARABIC_LETTERS).
      { unfold VALID_ARABIC_LETTERS. repeat constructor; lia. }
      rewrite List.Forall_forall in Hall. apply Hall.
      now apply list_elem_of_In in Hin.
    - rewrite orb_true_iff, !andb_true_iff, !N.leb_le. tauto. }
  split; [exact Hiff|]. split; [| split; reflexivity].
  unfold isDiacritic.
  destruct (prop ARABIC_DIACRITICS c) as [name|] eqn:Hc; [| discriminate].
  intros _. apply Hiff. left. apply prop_In in Hc.
  assert (Hall : Forall (fun kv : N * string =>
                           (0x0600 ≤ fst kv ≤ 0x06FF)%N) ARABIC_DIACRITICS).
  { unfold ARABIC_DIACRITICS. repeat constructor; simpl; lia. }
  rewrite List.Forall_forall in Hall. exact (Hall _ Hc).
Qed.


(** ** [processNameInput] in closed form *)

(** The text after steps 1 to 3, and the cleaned text. *)
Definition prepared (x : jsstring) : jsstring :=
  normalizeVariants (removeDiacritics (removeSpaces x)).

Definition normalized (removeSpacesBetween : bool) (x : jsstring) : jsstring :=
  removeSpaces (List.filter (kept removeSpacesBetween) (prepared x)).

Definition isNil {A} (l : list A) : bool :=
  match l with [] => true | _ => false end.

Definition warningsOf (x : jsstring) : list jsstring :=
  (if existsb isDiacritic (removeSpaces x)
   then [lit "Diacritical marks removed"] else [])
  ++ (if existsb isVariant (removeDiacritics (removeSpaces x))
      then [lit "Character variants normalized"] else []).

Definition errorsOf (removeSpacesBetween : bool) (x : jsstring)
    : list jsstring :=
  if isNil (removeSpaces x) then [lit "Empty input"]
  else
    (if isNil (List.filter rejected (prepared x)) then []
     else [nonArabicMessage (List.filter rejected (prepared x))])
    ++ (if isNil (normalized removeSpacesBetween x)
        then [lit "No valid Arabic/Urdu characters found"] else []).

Lemma removeDiacritics_id text :
  existsb isDiacritic text = false → removeDiacritics text = text.
Proof.
  intros H%existsb_isDiacritic_false. unfold removeDiacritics.
  apply filter_all. eapply Forall_impl; [exact H|].
  intros c Hc. simpl in Hc. now rewrite Hc.
Qed.

Lemma normalizeVariants_changes text :
  bool_decide (text ≠ normalizeVariants text) = existsb isVariant text.
Proof.
  induction text as [|c rest IH]; simpl.
  - reflexivity.
  - fold (normalizeChar c). unfold isVariant at 1, normalizeChar.
    destruct (prop ARABIC_CHAR_VARIANTS c) as [t|] eqn:Hc; simpl.
    + apply bool_decide_eq_true_2. intros [= Heq _].
      symmetry in Heq. now apply variant_target_differs in Heq.
    + rewrite <- IH. apply bool_decide_ext. split.
      * intros Hne Heq. apply Hne. now rewrite <- Heq.
      * intros Hne [= Heq]. now apply Hne.
Qed.

Lemma length_pos_isNil {A} (l : list A) :
  (0 <? List.length l)%nat = negb (isNil l).
Proof. now destruct l. Qed.

(** Every field of the answer of [processNameInput], read off the
    input. *)
Lemma processNameInput_report x b :
  processNameInput_string x b
  = (normalized b x,
     mkStatus (negb (isNil (normalized b x))) x (normalized b x)
       (List.length (normalized b x))
       (if isNil (removeSpaces x) then [] else warningsOf x)
       (errorsOf b x)
       (existsb isDiacritic (removeSpaces x))
       (List.length (normalized b x))).
Proof.
  unfold processNameInput_string, errorsOf, warningsOf, normalized, prepared.
  destruct (removeSpaces x) as [|c0 text0] eqn:Htext; [reflexivity|].
  set (text := c0 :: text0).
  assert (Hdia : (if existsb isDiacritic text then removeDiacritics text
                  else text) = removeDiacritics text).
  { destruct (existsb isDiacritic text) eqn:He; [done|].
    symmetry. now apply removeDiacritics_id. }
  rewrite Hdia, validateLoop_filter. cbn [app isNil].
  rewrite normalizeVariants_changes, length_pos_isNil.
  set (good := removeSpaces _). set (bad := List.filter rejected _).
  assert (Hw : (if existsb isVariant (removeDiacritics text)
                then (if existsb isDiacritic text
                      then [lit "Diacritical marks removed"] else [])
                     ++ [lit "Character variants normalized"]
                else if existsb isDiacritic text
                     then [lit "Diacritical marks removed"] else [])
               = (if existsb isDiacritic text
                  then [lit "Diacritical marks removed"] else [])
                 ++ (if existsb isVariant (removeDiacritics text)
                     then [lit "Character variants normalized"] else [])).
  { destruct (existsb isVariant _); [done | now rewrite app_nil_r]. }
  rewrite Hw.
  destruct good as [|c1 rest]; destruct (isNil bad); simpl;
    rewrite ?app_nil_r; reflexivity.
Qed.

(** X4. The cleaned text in closed form: [processNameInput] returns, and
    stores in [status.cleaned], the text obtained by trimming and collapsing
    white space, removing the diacritical marks, normalizing the variants,
    keeping the spaces (unless [removeSpacesBetween]) and the Arabic/Urdu
    characters, and trimming and collapsing again; it succeeds exactly when
    this text is not empty; [status.length] and [status.charCount] are its
    length, and [status.original] is the input. *)
Theorem processNameInput_closed_form (x : jsstring) (b : bool) :
  let p := processNameInput_string x b in
  p.1 = normalized b x
  ∧ cleaned p.2 = normalized b x
  ∧ (success p.2 = true ↔ normalized b x ≠ [])
  ∧ length p.2 = List.length (normalized b x)
  ∧ charCount p.2 = List.length (normalized b x)
  ∧ original p.2 = x.
Proof.
  cbv zeta. rewrite processNameInput_report. simpl.
  repeat split; try done; destruct (normalized b x); simpl; done.
Qed.

(** X5. Invalid characters are reported but do not make the input fail:
    [status.errors] holds "Empty input" alone for a blank input, and
    otherwise the "Non-Arabic characters found" message when a character
    was rejected, followed by "No valid Arabic/Urdu characters found" when
    nothing is left; so a successful answer has an error exactly when some
    character was rejected. *)
Theorem processNameInput_errors (x : jsstring) (b : bool) :
  let p := processNameInput_string x b in
  errors p.2 = errorsOf b x
  ∧ (success p.2 = true →
     errors p.2
     = if isNil (List.filter rejected (prepared x)) then []
       else [nonArabicMessage (List.filter rejected (prepared x))]).
Proof.
  cbv zeta. rewrite processNameInput_report. simpl. split; [done|].
  unfold errorsOf, normalized, prepared.
  destruct (removeSpaces x) as [|c0 text0] eqn:Htext; simpl.
  - discriminate.
  - destruct (removeSpaces (List.filter (kept b) _)); simpl;
      [discriminate|]. intros _. now rewrite app_nil_r.
Qed.

(** X6. The warnings and the diacritics flag: [status.hasDiacritics] tells
    whether the trimmed input holds a diacritical mark; [status.warnings]
    is "Diacritical marks removed" in that case, followed by "Character
    variants normalized" when a variant form is left after the marks are
    removed, and nothing else; a blank input has no warning. *)
Theorem processNameInput_warnings (x : jsstring) (b : bool) :
  let p := processNameInput_string x b in
  hasDiacritics p.2 = existsb isDiacritic (removeSpaces x)
  ∧ warnings p.2 = warningsOf x.
Proof.
  cbv zeta. rewrite processNameInput_report. simpl. split; [done|].
  unfold warningsOf. now destruct (removeSpaces x).
Qed.

(** ** [validateAndReport] *)

(** X7. [validateAndReport] returns the cleaned text of [processNameInput]
    (empty when the input is rejected); and reporting on a text that it
    returned gives this text back with the plain "Valid input" line, without
    warnings. *)
Theorem validateAndReport_cleaned (x : jsstring) :
  let cleaned := (validateAndReport_string x).1 in
  cleaned = normalized false x
  ∧ (cleaned ≠ [] →
     validateAndReport_string cleaned
     = (cleaned,
        [0x2705%N] ++ lit " Valid input: '" ++ cleaned ++ lit "' ("
        ++ String_of_number (Int (Z.of_nat (List.length cleaned)))
        ++ lit " characters)")).
Proof.
  cbv zeta.
  assert (Hfst : (validateAndReport_string x).1 = normalized false x).
  { unfold validateAndReport_string. rewrite processNameInput_report. simpl.
    destruct (normalized false x); simpl; [done|].
    repeat match goal with
           | |- context [if ?c then _ else _] => destruct c
           end; done. }
  split; [exact Hfst|]. rewrite Hfst. intros Hne.
  pose proof (processNameInput_normal x false) as Hnormal.
  rewrite processNameInput_report in Hnormal. simpl in Hnormal.
  destruct Hnormal as [Hsp Hall].
  set (c := normalized false x) in *.
  assert (Hdia : existsb isDiacritic c = false).
  { apply existsb_isDiacritic_false. eapply Forall_impl; [exact Hall|].
    now intros ch [[Hd _] _]. }
  assert (Hvar : existsb isVariant (removeDiacritics c) = false).
  { rewrite (removeDiacritics_id _ Hdia).
    rewrite <- normalizeVariants_changes. apply bool_decide_eq_false_2.
    intros Hneq. apply Hneq. symmetry. apply normalizeVariants_id.
    eapply Forall_impl; [exact Hall|]. now intros ch [Hs _]. }
  assert (Hfix : normalized false c = c).
  { pose proof (processNameInput_on_normal c false (conj Hsp Hall)) as [H1 _].
    now rewrite processNameInput_report in H1. }
  unfold validateAndReport_string. rewrite processNameInput_report.
  unfold warningsOf. rewrite Hfix, Hsp, Hdia, Hvar.
  destruct c as [|c1 rest]; [done|]. reflexivity.
Qed.

End TextProcessorMore.

(* ====================================================================== *)
(** * Properties of the calculator *)
(* ====================================================================== *)

Module AbjadCalculatorFacts.
Import AbjadCalculator.

(** The weight the loader gives to a letter, when it has a table. *)
Definition weight (loader : DataLoader.t) (char : N) : option Z :=
  match DataLoader.abjadValues loader !! [char] with
  | Some v => if v =? 0 then None else Some v
  | None => None
  end.

(** The letters of [chars] that have a weight, in order, each with its
    weight and its index in the text ([position] is the index of the first
    character of [chars]). *)
Fixpoint included (loader : DataLoader.t) (chars : jsstring) (position : nat)
    : list CharacterRecord :=
  match chars with
  | [] => []
  | char :: rest =>
      match weight loader char with
      | Some v => mkRecord char v position :: included loader rest (S position)
      | None => included loader rest (S position)
      end
  end.

Definition sumValues (breakdown : list CharacterRecord) : Z :=
  foldr (fun item acc => value item + acc) 0 breakdown.

Lemma sumValues_app l1 l2 : sumValues (l1 ++ l2) = sumValues l1 + sumValues l2.
Proof. induction l1 as [|x l1 IH]; simpl; [easy|]. rewrite IH. lia. Qed.

Lemma getLetterValue_Ret loader char o :
  DataLoader.getLetterValue loader [char] = Ret o →
  size (DataLoader.abjadValues loader) ≠ 0%nat ∧ o = weight loader char.
Proof.
  unfold DataLoader.getLetterValue, weight.
  destruct (Nat.eqb_spec (size (DataLoader.abjadValues loader)) 0);
    [discriminate|].
  intros [= <-]. easy.
Qed.

Lemma getLetterValue_loaded loader char :
  size (DataLoader.abjadValues loader) ≠ 0%nat →
  DataLoader.getLetterValue loader [char] = Ret (weight loader char).
Proof.
  intros Hsize. unfold DataLoader.getLetterValue, weight.
  now destruct (Nat.eqb_spec (size (DataLoader.abjadValues loader)) 0).
Qed.

Lemma getLetterValue_unloaded loader char :
  size (DataLoader.abjadValues loader) = 0%nat →
  DataLoader.getLetterValue loader [char]
  = Throw (Error (lit "Abjad values not loaded. Call loadAll() first.")).
Proof. intros Hsize. unfold DataLoader.getLetterValue. now rewrite Hsize. Qed.

(** What the loop adds to the result it started from. *)
Lemma processChars_Ret loader chars position r r' :
  processChars loader chars position r = Ret r' →
  characterBreakdown r'
    = characterBreakdown r ++ included loader chars position
  ∧ totalValue r'
    = totalValue r + sumValues (included loader chars position)
  ∧ charCount r'
    = (charCount r + length (included loader chars position))%nat
  ∧ inputName r' = inputName r.
Proof.
  revert position r.
  induction chars as [|char rest IH]; intros position r; simpl.
  - intros [= <-]. rewrite app_nil_r. repeat split; simpl; lia.
  - destruct (DataLoader.getLetterValue loader [char]) as [o|e] eqn:Hget;
      simpl; [| discriminate].
    apply getLetterValue_Ret in Hget as [_ ->].
    destruct (weight loader char) as [v|]; intros H;
      apply IH in H as (Hb & Ht & Hc & Hi); simpl in *.
    + rewrite Hb, Ht, Hc, Hi, <- app_assoc. simpl. repeat split; lia.
    + easy.
Qed.

Lemma processChars_loaded loader chars position r :
  size (DataLoader.abjadValues loader) ≠ 0%nat →
  ∃ r', processChars loader chars position r = Ret r'.
Proof.
  intros Hsize. revert position r.
  induction chars as [|char rest IH]; intros position r; simpl; [eauto|].
  rewrite (getLetterValue_loaded _ _ Hsize). simpl.
  destruct (weight loader char); apply IH.
Qed.

Lemma processChars_unloaded loader char rest position r :
  size (DataLoader.abjadValues loader) = 0%nat →
  processChars loader (char :: rest) position r
  = Throw (Error (lit "Abjad values not loaded. Call loadAll() first.")).
Proof.
  intros Hsize. simpl. now rewrite (getLetterValue_unloaded _ _ Hsize).
Qed.

(** The shape of every result of [calculateAbjadValue]. *)
Lemma calculateAbjadValue_Ret loader arabicName r :
  calculateAbjadValue loader arabicName = Ret r →
  inputName r = arabicName
  ∧ totalValue r = sumValues (characterBreakdown r)
  ∧ charCount r = length (characterBreakdown r)
  ∧ (success r = true →
     ∃ s, arabicName = JString s
          ∧ characterBreakdown r = included loader s 0).
Proof.
  unfold calculateAbjadValue.
  destruct (falsy arabicName).
  { intros [= <-]. simpl. repeat split; try easy. }
  destruct arabicName as [| |n|s];
    try (intros [= <-]; simpl; repeat split; easy).
  destruct (processChars loader s 0 _) as [r0|e] eqn:Hloop; simpl;
    [| discriminate].
  apply processChars_Ret in Hloop as (Hb & Ht & Hc & Hi). simpl in *.
  destruct (Nat.eqb_spec (charCount r0) 0) as [Hz|Hnz]; intros [= <-]; simpl.
  - rewrite Hb in *. rewrite Hc in Hz.
    destruct (included loader s 0); [| discriminate Hz].
    repeat split; easy.
  - rewrite Hb, Ht, Hc. repeat split; eauto.
Qed.


End AbjadCalculatorFacts.

(* ====================================================================== *)
(** * More on the calculator *)
(* ====================================================================== *)

Module AbjadCalculatorMore.
Import AbjadCalculator AbjadCalculatorFacts.

(** The weights of the letters of a text that have one, in order. *)
Definition weights (loader : DataLoader.t) (chars : jsstring) : list Z :=
  omap (weight loader) chars.

Definition sumZ (l : list Z) : Z := foldr Z.add 0 l.



Lemma included_values loader chars position :
  value <$> included loader chars position = weights loader chars.
Proof.
  revert position. induction chars as [|c rest IH]; intros position;
    simpl; [done|].
  unfold weights. simpl. destruct (weight loader c); simpl;
    [f_equal|]; apply IH.
Qed.

Lemma sumValues_sumZ breakdown : sumValues breakdown = sumZ (value <$> breakdown).
Proof. induction breakdown as [|x l IH]; simpl; [done|]. now rewrite IH. Qed.

(** The loop, with the warnings. *)
Lemma processChars_warnings loader chars position r r' :
  processChars loader chars position r = Ret r' →
  (length (warnings r') + length (included loader chars position)
   = length (warnings r) + length chars)%nat.
Proof.
  revert position r.
  induction chars as [|char rest IH]; intros position r; simpl.
  - intros [= <-]. lia.
  - destruct (DataLoader.getLetterValue loader [char]) as [o|e] eqn:Hget;
      simpl; [| discriminate].
    apply getLetterValue_Ret in Hget as [_ ->].
    destruct (weight loader char) as [v|]; intros H%IH; simpl in *.
    + lia.
    + rewrite length_app in H. simpl in H. lia.
Qed.

Lemma included_spec loader chars start item :
  item ∈ included loader chars start →
  ∃ i, position item = (start + i)%nat
       ∧ chars !! i = Some (character item)
       ∧ weight loader (character item) = Some (value item).
Proof.
  revert start. induction chars as [|c rest IH]; intros start; simpl.
  - intros H. now apply elem_of_nil in H.
  - destruct (weight loader c) as [v|] eqn:Hc.
    + intros [->|Hin]%elem_of_cons.
      * exists 0%nat. simpl. split; [lia | done].
      * apply IH in Hin as (i & Hp & Hi & Hw). exists (S i).
        split; [lia | done].
    + intros Hin. apply IH in Hin as (i & Hp & Hi & Hw). exists (S i).
      split; [lia | done].
Qed.

Lemma included_sorted loader chars start :
  StronglySorted lt (position <$> included loader chars start).
Proof.
  revert start. induction chars as [|c rest IH]; intros start; simpl.
  - constructor.
  - destruct (weight loader c); [| apply IH]. simpl.
    constructor; [apply IH|].
    apply Forall_forall. intros p (item & -> & Hin)%list_elem_of_fmap.
    apply included_spec in Hin as (i & -> & _). lia.
Qed.

(** What [calculateAbjadValue] returns for a string, when it returns. *)
Lemma calculateAbjadValue_string loader s r :
  calculateAbjadValue loader (JString s) = Ret r →
  characterBreakdown r = included loader s 0
  ∧ totalValue r = sumZ (weights loader s)
  ∧ charCount r = length (weights loader s)
  ∧ (length (warnings r) + length (included loader s 0) = length s)%nat
  ∧ success r = negb (length (weights loader s) =? 0)%nat
  ∧ errors r
    = match s with
      | [] => [lit "Input name is empty"]
      | _ => if (length (weights loader s) =? 0)%nat
             then [lit "No valid Arabic letters found in input"] else []
      end.
Proof.
  rewrite <- (included_values loader s 0), length_fmap.
  unfold calculateAbjadValue. destruct s as [|c s']; simpl falsy; cbv iota.
  { intros [= <-]. simpl. repeat split; done. }
  remember (c :: s') as s eqn:Hs.
  destruct (processChars loader s 0 _) as [r0|e] eqn:Hloop; simpl;
    [| discriminate].
  pose proof (processChars_warnings _ _ _ _ _ Hloop) as Hw.
  apply processChars_Ret in Hloop as (Hb & Ht & Hc & _).
  simpl in Hb, Ht, Hc, Hw.
  rewrite sumValues_sumZ in Ht.
  destruct (Nat.eqb_spec (charCount r0) 0) as [Hz|Hnz]; intros [= <-]; simpl.
  - rewrite Hc in Hz. rewrite Hb.
    destruct (included loader s 0); [| discriminate Hz]. simpl in *.
    repeat split; done.
  - rewrite Hb, Ht, Hc.
    destruct (Nat.eqb_spec (length (included loader s 0)) 0); [lia|].
    repeat split; done.
Qed.

(** X8. Every character of the text is accounted for: when
    [calculateAbjadValue] returns for a string, the warnings and the
    breakdown entries are together as many as the characters; each entry
    records a character of the text at the 0-based index [position], with
    the non-zero weight that the table gives it; and the positions
    increase. *)
Theorem calculateAbjadValue_accounts loader (s : jsstring) r :
  calculateAbjadValue loader (JString s) = Ret r →
  (length (warnings r) + length (characterBreakdown r) = length s)%nat
  ∧ (∀ item, item ∈ characterBreakdown r →
       s !! position item = Some (character item)
       ∧ DataLoader.abjadValues loader !! [character item] = Some (value item)
       ∧ value item ≠ 0)
  ∧ StronglySorted lt (position <$> characterBreakdown r).
Proof.
  intros (Hb & _ & _ & Hw & _)%calculateAbjadValue_string. rewrite Hb.
  split; [exact Hw|]. split; [| apply included_sorted].
  intros item (i & Hp & Hi & Hweight)%included_spec.
  simpl in Hp. subst. split; [exact Hi|].
  unfold weight in Hweight.
  destruct (DataLoader.abjadValues loader !! [character item]) as [v|];
    [| discriminate].
  destruct (Z.eqb_spec v 0); [discriminate|].
  injection Hweight as <-. done.
Qed.



Lemma weights_nil_iff loader s :
  weights loader s = []
  ↔ ∀ c v, c ∈ s → DataLoader.abjadValues loader !! [c] = Some v → v = 0.
Proof.
  unfold weights. induction s as [|c rest IH]; simpl.
  - split; [intros _ c v Hc; now apply elem_of_nil in Hc | done].
  - unfold weight at 1.
    destruct (DataLoader.abjadValues loader !! [c]) as [v|] eqn:Hc.
    + destruct (Z.eqb_spec v 0) as [->|Hv]; simpl.
      * rewrite IH. split.
        -- intros H c' v' [->|Hin]%elem_of_cons Hl; [congruence | eauto].
        -- intros H c' v' Hin. apply H. now right.
      * split; [discriminate|]. intros H. exfalso. apply Hv.
        apply (H c v); [now left | done].
    + simpl. rewrite IH. split.
      * intros H c' v' [->|Hin]%elem_of_cons Hl; [congruence | eauto].
      * intros H c' v' Hin. apply H. now right.
Qed.

(** X11. The verdict of [calculateAbjadValue] on a string: the empty string
    is answered with "Input name is empty" whatever the table; on any other
    string an empty table makes the call throw; otherwise the call returns,
    successfully exactly when some character of the string has a non-zero
    weight in the table (a weight of 0 counts as no weight), and with "No
    valid Arabic letters found in input" as its only error if not. *)
Theorem calculateAbjadValue_verdict loader (s : jsstring) :
  (s = [] →
   calculateAbjadValue loader (JString s)
   = Ret (mkResult false 0 (JString []) [] 0 [lit "Input name is empty"] []))
  ∧ (s ≠ [] → size (DataLoader.abjadValues loader) = 0%nat →
     calculateAbjadValue loader (JString s)
     = Throw (Error (lit "Abjad values not loaded. Call loadAll() first.")))
  ∧ (s ≠ [] → size (DataLoader.abjadValues loader) ≠ 0%nat →
     ∃ r, calculateAbjadValue loader (JString s) = Ret r
          ∧ (success r = true
             ↔ ∃ c v, c ∈ s
                      ∧ DataLoader.abjadValues loader !! [c] = Some v
                      ∧ v ≠ 0)
          ∧ errors r
            = if success r then []
              else [lit "No valid Arabic letters found in input"]).
Proof.
  split; [now intros ->|]. split.
  - intros Hs Hsize. destruct s as [|c rest]; [done|].
    unfold calculateAbjadValue. cbn [falsy].
    now rewrite (processChars_unloaded _ _ _ _ _ Hsize).
  - intros Hs Hsize.
    assert (∃ r, calculateAbjadValue loader (JString s) = Ret r) as [r Hr].
    { unfold calculateAbjadValue. destruct s as [|c rest]; [done|].
      cbn [falsy].
      destruct (processChars_loaded loader (c :: rest) 0
                  (mkResult false 0 (JString (c :: rest)) [] 0 [] []) Hsize)
        as [r0 ->].
      simpl. destruct (charCount r0 =? 0)%nat; eauto. }
    exists r. split; [exact Hr|].
    apply calculateAbjadValue_string in Hr as (_ & _ & _ & _ & Hok & Herr).
    rewrite Hok, Herr. destruct s as [|c0 rest0]; [done|].
    split.
    + destruct (Nat.eqb_spec (length (weights loader (c0 :: rest0))) 0)
        as [Hz|Hnz]; simpl.
      * split; [discriminate|]. intros (c & v & Hin & Hl & Hv).
        exfalso. apply Hv.
        apply length_zero_iff_nil in Hz.
        exact (proj1 (weights_nil_iff _ _) Hz c v Hin Hl).
      * split; [intros _ | done].
        destruct (weights loader (c0 :: rest0)) as [|z l] eqn:Hw; [done|].
        assert (Hin : z ∈ weights loader (c0 :: rest0))
          by (rewrite Hw; left).
        unfold weights in Hin.
        apply list_elem_of_omap in Hin as (c & Hc & Hweight).
        unfold weight in Hweight.
        destruct (DataLoader.abjadValues loader !! [c]) as [v|] eqn:Hl;
          [| discriminate].
        destruct (Z.eqb_spec v 0); [discriminate|].
        exists c, v. done.
    + now destruct (length (weights loader (c0 :: rest0)) =? 0)%nat.
Qed.


End AbjadCalculatorMore.

(* ====================================================================== *)
(** * Properties of the two indexes *)
(* ====================================================================== *)

Module IndexFacts.
Import Catalog.

(** Both [buildNamesIndex] and [_buildValueMap] group the catalog by a key
    and keep, under each key, one entry per name in catalog order. *)
Section grouping.
Context {A V K : Type} `{Countable K}.
Variable key : A → K.
Variable val : A → V.

Definition step (m : gmap K (list V)) (a : A) : gmap K (list V) :=
  alter (fun vs => vs ++ [val a]) (key a)
    (match m !! key a with
     | None => <[key a := []]> m
     | Some _ => m
     end).

Definition grouped (l : list A) (k : K) : list V :=
  val <$> filter (fun a => key a = k) l.

Lemma step_lookup m a k :
  step m a !! k
  = if decide (key a = k) then Some (default [] (m !! k) ++ [val a])
    else m !! k.
Proof.
  unfold step. destruct (decide (key a = k)) as [<-|Hne].
  - rewrite lookup_alter_eq.
    destruct (m !! key a) as [vs|] eqn:Hm.
    + now rewrite Hm.
    + now rewrite lookup_insert_eq.
  - rewrite lookup_alter_ne by done.
    destruct (m !! key a); [done|]. now rewrite lookup_insert_ne.
Qed.

Lemma grouped_snoc l a k :
  grouped (l ++ [a]) k
  = grouped l k ++ (if decide (key a = k) then [val a] else []).
Proof.
  unfold grouped. rewrite filter_app, fmap_app. f_equal.
  rewrite filter_cons, filter_nil. now destruct (decide (key a = k)).
Qed.

Lemma foldl_step_lookup l k :
  foldl step ∅ l !! k
  = match grouped l k with [] => None | vs => Some vs end.
Proof.
  induction l as [|a l IH] using rev_ind; [done|].
  rewrite foldl_app. simpl. rewrite step_lookup, grouped_snoc, IH.
  destruct (decide (key a = k)).
  - destruct (grouped l k); done.
  - now rewrite app_nil_r.
Qed.
End grouping.

(** The names of the catalog whose value is [z], in catalog order. *)
Definition namesAt (catalog : list DivineName) (z : Z) : list DivineName :=
  filter (fun name => abjad_value name = z) catalog.

Lemma _buildValueMap_lookup catalog z :
  NameMatcher._buildValueMap catalog !! z
  = match id <$> namesAt catalog z with [] => None | ids => Some ids end.
Proof. apply (foldl_step_lookup abjad_value id). Qed.

Lemma namesAt_key catalog z :
  filter (fun name => String_of_number (Int (abjad_value name))
                      = String_of_number (Int z)) catalog
  = namesAt catalog z.
Proof.
  unfold namesAt. apply list_filter_iff. intros name. split.
  - apply String_of_number_Int_inj.
  - now intros ->.
Qed.

Lemma buildNamesIndex_grouped catalog k :
  buildNamesIndex catalog !! k
  = match filter (fun name => String_of_number (Int (abjad_value name)) = k)
            catalog with
    | [] => None
    | names => Some names
    end.
Proof.
  rewrite <- (list_fmap_id (filter _ catalog)).
  apply (foldl_step_lookup
           (fun name => String_of_number (Int (abjad_value name)))
           (fun name => name)).
Qed.

Lemma buildNamesIndex_lookup catalog z :
  buildNamesIndex catalog !! String_of_number (Int z)
  = match namesAt catalog z with [] => None | names => Some names end.
Proof.
  now rewrite buildNamesIndex_grouped, namesAt_key.
Qed.



End IndexFacts.

(* ====================================================================== *)
(** * Properties of the matcher *)
(* ====================================================================== *)

Module NameMatcherFacts.
Import Catalog NameMatcher IndexFacts.

(** ** The canonical key of a pair of ids *)

Lemma sortPair_comm a b : sortPair a b = sortPair b a.
Proof.
  unfold sortPair, String.ltb.
  rewrite (String.compare_antisym (decimal a) (decimal b)).
  destruct (String.compare (decimal b) (decimal a)) eqn:Hcmp; simpl; try done.
  apply String.compare_eq_iff, decimal_inj in Hcmp. now subst.
Qed.

Lemma canonical_comm a b : canonical a b = canonical b a.
Proof. unfold canonical. now rewrite sortPair_comm. Qed.

(** The key under which a combination was recorded. *)
Definition key (c : Combination) : jsstring :=
  canonical (id (name1 c)) (id (name2 c)).

(** Two combinations made of the same two ids, in either order. *)
Definition sameUnorderedPair (c1 c2 : Combination) : Prop :=
  (id (name1 c1) = id (name1 c2) ∧ id (name2 c1) = id (name2 c2))
  ∨ (id (name1 c1) = id (name2 c2) ∧ id (name2 c1) = id (name1 c2)).

Lemma sameUnorderedPair_key c1 c2 : sameUnorderedPair c1 c2 → key c1 = key c2.
Proof.
  unfold key. intros [[-> ->]|[-> ->]]; [done | apply canonical_comm].
Qed.

(** ** The catalog *)

Lemma _getNameById_Some catalog nameId name :
  _getNameById catalog nameId = Some name → name ∈ catalog ∧ id name = nameId.
Proof.
  induction catalog as [|n rest IH]; simpl; [done|].
  destruct (Z.eqb_spec (id n) nameId) as [Heq|_].
  - intros [= <-]. split; [left | done].
  - intros [Hin Hid]%IH. split; [now right | done].
Qed.

Lemma NoDup_fmap_eq {A B} (f : A → B) (l : list A) x y :
  NoDup (f <$> l) → x ∈ l → y ∈ l → f x = f y → x = y.
Proof.
  induction l as [|a l IH]; simpl; [now intros _ ?%elem_of_nil|].
  rewrite NoDup_cons, !elem_of_cons. intros [Ha Hl] [->|Hx] [->|Hy] Hf; auto.
  - exfalso. apply Ha. rewrite Hf. now apply list_elem_of_fmap_2.
  - exfalso. apply Ha. rewrite <- Hf. now apply list_elem_of_fmap_2.
Qed.

(** ** The two loops *)

(** The combination pushed for [name1] and the entry [name2] found under
    [name2Id]. *)
Definition combine (abjadValue : jsnum) (name1 : DivineName) (name2Id : Z)
    (name2 : DivineName) : Combination :=
  mkCombination
    (mkName (id name1) (arabic_name name1) (english_name name1)
       (abjad_value name1) (meaning name1))
    (mkName name2Id (arabic_name name2) (english_name name2)
       (abjad_value name2) (meaning name2))
    abjadValue.

Section loops.
Variable catalog : list DivineName.
Variable abjadValue : jsnum.

(** Every combination pushed satisfies [Q] as soon as the ones that can be
    built do. *)
Lemma pairLoop_Forall (Q : Combination → Prop) name1 name2Ids recorded l :
  (∀ name2Id name2,
     name2Id ∈ name2Ids → id name1 ≠ name2Id →
     _getNameById catalog name2Id = Some name2 →
     Q (combine abjadValue name1 name2Id name2)) →
  Forall Q l →
  Forall Q (pairLoop catalog abjadValue name1 name2Ids (recorded, l)).2.
Proof.
  revert recorded l.
  induction name2Ids as [|name2Id rest IH]; intros recorded l HQ Hl;
    simpl; [done|].
  assert (HQrest : ∀ name2Id name2,
            name2Id ∈ rest → id name1 ≠ name2Id →
            _getNameById catalog name2Id = Some name2 →
            Q (combine abjadValue name1 name2Id name2)).
  { intros i n Hi. apply HQ. now right. }
  destruct (Z.eqb_spec (id name1) name2Id) as [_|Hne]; [now apply IH|].
  case_bool_decide; [now apply IH|].
  destruct (_getNameById catalog name2Id) as [name2|] eqn:Hget;
    [| now apply IH].
  apply IH; [done|]. apply Forall_app. split; [done|].
  constructor; [| constructor]. apply HQ; [now left | done | done].
Qed.

(** The recorded keys cover the combinations, whose keys are distinct. *)
Definition distinctKeys (st : gset jsstring * list Combination) : Prop :=
  NoDup (key <$> st.2) ∧ ∀ c, c ∈ st.2 → key c ∈ st.1.

Lemma pairLoop_distinctKeys name1 name2Ids st :
  distinctKeys st →
  distinctKeys (pairLoop catalog abjadValue name1 name2Ids st).
Proof.
  revert st.
  induction name2Ids as [|name2Id rest IH]; intros [recorded l] Hst;
    simpl; [done|].
  destruct (Z.eqb_spec (id name1) name2Id) as [_|Hne]; [now apply IH|].
  case_bool_decide as Hrec; [now apply IH|].
  destruct Hst as [Hnodup Hcover]. simpl in *.
  destruct (_getNameById catalog name2Id) as [name2|] eqn:Hget; apply IH.
  - split; simpl.
    + rewrite fmap_app. apply NoDup_app. split; [done|]. split.
      * intros k Hk Hk'. apply list_elem_of_fmap in Hk as (c & -> & Hc).
        apply list_elem_of_singleton in Hk'. simpl in Hk'.
        apply Hrec. unfold key in Hk'. simpl in Hk'. rewrite <- Hk'.
        now apply Hcover.
      * apply NoDup_singleton.
    + intros c [Hc|Hc]%elem_of_app.
      * apply elem_of_union_r. now apply Hcover.
      * apply list_elem_of_singleton in Hc. subst c.
        apply elem_of_union_l, elem_of_singleton. reflexivity.
  - split; [done|]. simpl. intros c Hc.
    apply elem_of_union_r. now apply Hcover.
Qed.

Variable valueToIds : gmap Z (list Z).

Lemma has_lookupIds requiredValue :
  has (dom valueToIds) requiredValue = true →
  ∃ z name2Ids, requiredValue = Int z ∧ valueToIds !! z = Some name2Ids
                ∧ lookupIds valueToIds requiredValue = Some name2Ids.
Proof.
  destruct requiredValue as [|z]; simpl; [done|].
  intros Hin%bool_decide_eq_true. apply elem_of_dom in Hin as [ids Hids].
  eauto.
Qed.

(** The pair search always runs to completion. *)
Lemma nameLoop_returns names st :
  ∃ st', nameLoop catalog valueToIds (dom valueToIds) abjadValue names st
         = Ret st'.
Proof.
  revert st. induction names as [|name1 rest IH]; intros st; simpl;
    [eauto|].
  destruct (has _ _) eqn:Hhas; [| apply IH].
  apply has_lookupIds in Hhas as (z & ids & _ & _ & ->). apply IH.
Qed.

Lemma nameLoop_Forall (Q : Combination → Prop) names recorded l st' :
  (∀ name1 z name2Ids name2Id name2,
     name1 ∈ names →
     num_sub abjadValue (abjad_value name1) = Int z →
     valueToIds !! z = Some name2Ids →
     name2Id ∈ name2Ids → id name1 ≠ name2Id →
     _getNameById catalog name2Id = Some name2 →
     Q (combine abjadValue name1 name2Id name2)) →
  Forall Q l →
  nameLoop catalog valueToIds (dom valueToIds) abjadValue names
    (recorded, l) = Ret st' →
  Forall Q st'.2.
Proof.
  revert recorded l.
  induction names as [|name1 rest IH]; intros recorded l HQ Hl; simpl.
  - now intros [= <-].
  - assert (HQrest : ∀ name1 z name2Ids name2Id name2,
              name1 ∈ rest →
              num_sub abjadValue (abjad_value name1) = Int z →
              valueToIds !! z = Some name2Ids →
              name2Id ∈ name2Ids → id name1 ≠ name2Id →
              _getNameById catalog name2Id = Some name2 →
              Q (combine abjadValue name1 name2Id name2)).
    { intros n z ids i n2 Hn. apply HQ. now right. }
    destruct (has _ _) eqn:Hhas; [| now apply IH].
    apply has_lookupIds in Hhas as (z & ids & Hz & Hids & ->).
    destruct (pairLoop catalog abjadValue name1 ids (recorded, l))
      as [recorded1 l1] eqn:Hpair.
    apply IH; [done|].
    change l1 with (recorded1, l1).2. rewrite <- Hpair.
    apply pairLoop_Forall; [| done].
    intros i n2. apply (HQ name1 z ids); [now left | done | done].
Qed.

Lemma nameLoop_distinctKeys names st st' :
  distinctKeys st →
  nameLoop catalog valueToIds (dom valueToIds) abjadValue names st = Ret st' →
  distinctKeys st'.
Proof.
  revert st. induction names as [|name1 rest IH]; intros st Hst; simpl.
  - now intros [= <-].
  - destruct (has _ _) eqn:Hhas; [| now apply IH].
    apply has_lookupIds in Hhas as (z & ids & _ & _ & ->).
    apply IH. now apply pairLoop_distinctKeys.
Qed.
End loops.

(** ** Sorting *)

Lemma insertSorted_Permutation {A} (cmp : A → A → Z) x l :
  insertSorted cmp x l ≡ₚ x :: l.
Proof.
  induction l as [|y rest IH]; simpl; [done|].
  destruct (cmp x y <=? 0); [done|].
  rewrite IH. apply Permutation_swap.
Qed.

Lemma sort_Permutation {A} (cmp : A → A → Z) l : sort cmp l ≡ₚ l.
Proof.
  induction l as [|x rest IH]; simpl; [done|].
  now rewrite insertSorted_Permutation, IH.
Qed.


(** ** [findTwoNameCombination] and [findMatch] *)

Lemma findTwoNameCombination_Ret self loader abjadValue limit r :
  findTwoNameCombination self loader abjadValue limit = Ret r →
  ∃ st',
    nameLoop (DataLoader.divineNames loader) (valueToIds self)
      (dom (valueToIds self)) abjadValue (DataLoader.divineNames loader)
      (∅, []) = Ret st'
    ∧ combinations r = take limit (sort compareCombinations st'.2)
    ∧ pfound r = (0 <? length (combinations r))%nat
    ∧ pcount r = length (combinations r)
    ∧ pabjadValue r = abjadValue.
Proof.
  unfold findTwoNameCombination.
  destruct (nameLoop _ _ _ _ _ _) as [[recorded l]|e]; simpl;
    [| discriminate].
  intros Hr. exists (recorded, l). split; [done|]. simpl.
  destruct (0 <? length (take limit (sort compareCombinations l)))%nat eqn:Hlen;
    injection Hr as <-; simpl; rewrite ?Hlen; try done.
  repeat split; try done.
  apply Nat.ltb_ge in Hlen. lia.
Qed.

Lemma findTwoNameCombination_returns self loader abjadValue limit :
  ∃ r, findTwoNameCombination self loader abjadValue limit = Ret r.
Proof.
  unfold findTwoNameCombination.
  destruct (nameLoop_returns (DataLoader.divineNames loader) abjadValue
              (valueToIds self) (DataLoader.divineNames loader) (∅, []))
    as [[recorded l] ->].
  simpl. destruct (0 <? _)%nat; eauto.
Qed.



Lemma findDirectMatch_Ret loader abjadValue r :
  findDirectMatch loader abjadValue = Ret r →
  size (DataLoader.namesIndex loader) ≠ 0%nat
  ∧ divineNames r
    = default [] (DataLoader.namesIndex loader !! String_of_number abjadValue)
  ∧ found r = (0 <? length (divineNames r))%nat
  ∧ count r = length (divineNames r).
Proof.
  unfold findDirectMatch, DataLoader.getNamesByValue.
  destruct (Nat.eqb_spec (size (DataLoader.namesIndex loader)) 0);
    simpl; [discriminate|].
  destruct (0 <? length _)%nat eqn:Hlen; intros [= <-]; simpl.
  - now rewrite Hlen.
  - apply Nat.ltb_ge in Hlen.
    destruct (default [] _); simpl in *; [done | lia].
Qed.

Lemma findDirectMatch_unloaded loader abjadValue :
  size (DataLoader.namesIndex loader) = 0%nat →
  findDirectMatch loader abjadValue
  = Throw (Error (lit "Names index not loaded. Call loadAll() first.")).
Proof.
  intros Hsize. unfold findDirectMatch, DataLoader.getNamesByValue.
  now rewrite Hsize.
Qed.

Lemma findDirectMatch_loaded loader abjadValue :
  size (DataLoader.namesIndex loader) ≠ 0%nat →
  ∃ r, findDirectMatch loader abjadValue = Ret r.
Proof.
  intros Hsize. unfold findDirectMatch, DataLoader.getNamesByValue.
  destruct (Nat.eqb_spec (size (DataLoader.namesIndex loader)) 0); [done|].
  simpl. destruct (0 <? _)%nat; eauto.
Qed.

(** When [findMatch] answers with a pair result, the direct lookup was
    empty and the result is that of [findTwoNameCombination]. *)
Lemma findMatch_pair self loader abjadValue r :
  findMatch self loader abjadValue = Ret (two_name_combination r) →
  default [] (DataLoader.namesIndex loader !! String_of_number abjadValue) = []
  ∧ findTwoNameCombination self loader abjadValue 10 = Ret r.
Proof.
  unfold findMatch.
  destruct (findDirectMatch loader abjadValue) as [d|e] eqn:Hd; simpl;
    [| discriminate].
  apply findDirectMatch_Ret in Hd as (_ & Hnames & Hfound & _).
  destruct (found d) eqn:Hf; [discriminate|].
  destruct (findTwoNameCombination self loader abjadValue 10) as [p|e];
    simpl; [| discriminate].
  intros [= ->]. split; [| done].
  rewrite <- Hnames. symmetry in Hfound. apply Nat.ltb_ge in Hfound.
  destruct (divineNames d); simpl in *; [done | lia].
Qed.

Lemma sound_combination catalog abjadValue name1 z name2Ids name2Id name2 :
  NoDup (id <$> catalog) →
  num_sub abjadValue (abjad_value name1) = Int z →
  _buildValueMap catalog !! z = Some name2Ids →
  name2Id ∈ name2Ids → id name1 ≠ name2Id →
  _getNameById catalog name2Id = Some name2 →
  let c := combine abjadValue name1 name2Id name2 in
  id (NameMatcher.name1 c) ≠ id (NameMatcher.name2 c)
  ∧ Int (abjad_value (NameMatcher.name1 c) + abjad_value (NameMatcher.name2 c))
    = abjadValue.
Proof.
  intros Hnodup Hsub Hids Hin Hne Hget. simpl. split; [done|].
  rewrite _buildValueMap_lookup in Hids.
  assert (Hin' : name2Id ∈ id <$> namesAt catalog z).
  { destruct (id <$> namesAt catalog z); [discriminate|]. congruence. }
  apply list_elem_of_fmap in Hin' as (n & Hn & Hnin).
  apply list_elem_of_filter in Hnin as [Hval Hncat].
  apply _getNameById_Some in Hget as [Hcat Hid].
  assert (n = name2) as ->.
  { apply (NoDup_fmap_eq id catalog); [done..|congruence]. }
  destruct abjadValue as [|t]; simpl in Hsub; [discriminate|].
  injection Hsub as Hz. f_equal. lia.
Qed.

(** Soundness of the pair search for any limit. *)
Lemma findTwoNameCombination_sound self loader abjadValue limit r :
  valueToIds self = _buildValueMap (DataLoader.divineNames loader) →
  NoDup (id <$> DataLoader.divineNames loader) →
  findTwoNameCombination self loader abjadValue limit = Ret r →
  Forall (fun c =>
            id (name1 c) ≠ id (name2 c)
            ∧ Int (abjad_value (name1 c) + abjad_value (name2 c)) = abjadValue)
    (combinations r).
Proof.
  intros Hfresh Hnodup (st' & Hloop & -> & _)%findTwoNameCombination_Ret.
  apply Forall_take. rewrite sort_Permutation.
  eapply nameLoop_Forall; [| constructor | exact Hloop].
  intros name1 z ids i n2 _ Hsub Hids Hin Hne Hget.
  rewrite Hfresh in Hids.
  exact (sound_combination _ _ _ _ _ _ _ Hnodup Hsub Hids Hin Hne Hget).
Qed.

Lemma findTwoNameCombination_distinct self loader abjadValue limit r :
  findTwoNameCombination self loader abjadValue limit = Ret r →
  NoDup (key <$> combinations r).
Proof.
  intros (st' & Hloop & -> & _)%findTwoNameCombination_Ret.
  apply nameLoop_distinctKeys in Hloop as [Hnodup _].
  - rewrite fmap_take.
    eapply sublist_NoDup; [| apply sublist_take].
    now rewrite sort_Permutation.
  - split; simpl; [constructor | intros c Hc; now apply elem_of_nil in Hc].
Qed.


(** C3. Pair-search uniqueness: two different positions of the combinations
    of a pair result of [findMatch] never hold the same two ids, in either
    order. *)
Theorem pair_search_unique self loader (abjadValue : jsnum) r :
  findMatch self loader abjadValue = Ret (two_name_combination r) →
  ∀ i j c1 c2,
    combinations r !! i = Some c1 → combinations r !! j = Some c2 →
    i ≠ j → ¬ sameUnorderedPair c1 c2.
Proof.
  intros [_ Hpair]%findMatch_pair i j c1 c2 Hi Hj Hij Hsame.
  apply findTwoNameCombination_distinct in Hpair.
  apply Hij. eapply NoDup_lookup; [exact Hpair | |].
  - rewrite list_lookup_fmap, Hi. reflexivity.
  - rewrite list_lookup_fmap, Hj. simpl. f_equal.
    symmetry. now apply sameUnorderedPair_key.
Qed.

(** C2. Direct-match priority: when the names index has a non-empty entry
    for the target, [findMatch] answers with a direct result that lists
    this entry, and so with no pair result; for an index built by
    [buildNamesIndex] the entry holds every name of the catalog with that
    value, in catalog order; and a pair result is only ever returned when
    the direct lookup was empty. *)
Theorem direct_match_priority self loader (abjadValue : jsnum) names :
  DataLoader.namesIndex loader !! String_of_number abjadValue = Some names →
  names ≠ [] →
  findMatch self loader abjadValue
    = Ret (direct_match (mkDirect true abjadValue (length names) names))
  ∧ (∀ r, findMatch self loader abjadValue ≠ Ret (two_name_combination r))
  ∧ (∀ z, abjadValue = Int z →
       DataLoader.namesIndex loader
         = buildNamesIndex (DataLoader.divineNames loader) →
       names = namesAt (DataLoader.divineNames loader) z)
  ∧ (∀ other r,
       findMatch self loader other = Ret (two_name_combination r) →
       default [] (DataLoader.namesIndex loader !! String_of_number other)
       = []).
Proof.
  intros Hlookup Hne.
  assert (Hdirect :
    findMatch self loader abjadValue
    = Ret (direct_match (mkDirect true abjadValue (length names) names))).
  { unfold findMatch, findDirectMatch, DataLoader.getNamesByValue.
    destruct (Nat.eqb_spec (size (DataLoader.namesIndex loader)) 0) as [Hz|_].
    - apply map_size_empty_iff in Hz. rewrite Hz in Hlookup.
      now rewrite lookup_empty in Hlookup.
    - rewrite Hlookup. simpl. destruct names; [done|]. reflexivity. }
  split; [exact Hdirect|]. split; [| split].
  - intros r. rewrite Hdirect. discriminate.
  - intros z -> Hindex. rewrite Hindex, buildNamesIndex_lookup in Hlookup.
    destruct (namesAt _ z); [discriminate | congruence].
  - intros other r [Hempty _]%findMatch_pair. exact Hempty.
Qed.

End NameMatcherFacts.

(* ====================================================================== *)
(** * More on the indexes and the matcher *)
(* ====================================================================== *)

Module NameMatcherMore.
Import Catalog NameMatcher IndexFacts NameMatcherFacts.

(** ** The two indexes *)

Lemma namesAt_nil_iff catalog z :
  namesAt catalog z = [] ↔ ∀ name, name ∈ catalog → abjad_value name ≠ z.
Proof.
  unfold namesAt. split.
  - intros Hnil name Hin Hval.
    assert (Hf : name ∈ filter (fun n => abjad_value n = z) catalog)
      by now apply list_elem_of_filter.
    rewrite Hnil in Hf. now apply elem_of_nil in Hf.
  - intros Hall. induction catalog as [|n rest IH]; [done|].
    rewrite filter_cons_False by (apply Hall; left).
    apply IH. intros name Hin. apply Hall. now right.
Qed.

(** X13. [buildNamesIndex] groups the catalog by value: under the key
    [String(v)] stand the names of value [v], all of them and in catalog
    order; a value carried by no name has no key; every key is the
    rendering of a value of the catalog and no entry is empty; and the index
    has no key exactly when the catalog is empty. *)
Theorem buildNamesIndex_groups (catalog : list DivineName) :
  (∀ z, buildNamesIndex catalog !! String_of_number (Int z)
        = if bool_decide (namesAt catalog z = []) then None
          else Some (namesAt catalog z))
  ∧ (∀ k names, buildNamesIndex catalog !! k = Some names →
       names ≠ []
       ∧ ∃ z, k = String_of_number (Int z) ∧ names = namesAt catalog z)
  ∧ (size (buildNamesIndex catalog) = 0%nat ↔ catalog = []).
Proof.
  assert (H1 : ∀ z, buildNamesIndex catalog !! String_of_number (Int z)
                    = if bool_decide (namesAt catalog z = []) then None
                      else Some (namesAt catalog z)).
  { intros z. rewrite buildNamesIndex_lookup.
    destruct (namesAt catalog z); [done|].
    now rewrite bool_decide_eq_false_2. }
  assert (H2 : ∀ k names, buildNamesIndex catalog !! k = Some names →
                 names ≠ []
                 ∧ ∃ z, k = String_of_number (Int z)
                        ∧ names = namesAt catalog z).
  { intros k names. rewrite buildNamesIndex_grouped.
    destruct (filter _ catalog) as [|n l] eqn:Hf; [discriminate|].
    intros [= <-]. split; [done|].
    assert (Hn : n ∈ filter
                   (fun name => String_of_number (Int (abjad_value name)) = k)
                   catalog) by (rewrite Hf; left).
    apply list_elem_of_filter in Hn as [Hk _].
    exists (abjad_value n). split; [done|].
    rewrite <- Hf, <- Hk. apply namesAt_key. }
  split; [exact H1|]. split; [exact H2|].
  rewrite map_size_empty_iff. split.
  - intros Hempty. destruct catalog as [|n rest]; [done|]. exfalso.
    pose proof (H1 (abjad_value n)) as Hn.
    rewrite Hempty, lookup_empty in Hn.
    case_bool_decide as Hnil; [| discriminate].
    apply (proj1 (namesAt_nil_iff _ _) Hnil n); [left | done].
  - now intros ->.
Qed.

(** X14. [_buildValueMap] agrees with [buildNamesIndex]: the ids that the
    matcher keeps under a value are the ids of the names that the names
    index keeps under the rendering of this value, in the same order. *)
Theorem valueMap_agrees_with_index (catalog : list DivineName) (z : Z) :
  _buildValueMap catalog !! z
  = (fun names => id <$> names)
      <$> (buildNamesIndex catalog !! String_of_number (Int z)).
Proof.
  rewrite _buildValueMap_lookup, buildNamesIndex_lookup.
  now destruct (namesAt catalog z).
Qed.

Lemma _getNameById_head catalog nameId :
  _getNameById catalog nameId
  = head (filter (fun name => id name = nameId) catalog).
Proof.
  induction catalog as [|n rest IH]; simpl; [done|].
  rewrite filter_cons.
  destruct (Z.eqb_spec (id n) nameId) as [Heq|Hne].
  - now rewrite decide_True.
  - now rewrite decide_False.
Qed.

Lemma _getNameById_unique catalog name :
  NoDup (id <$> catalog) → name ∈ catalog →
  _getNameById catalog (id name) = Some name.
Proof.
  intros Hnodup Hin.
  destruct (_getNameById catalog (id name)) as [n|] eqn:Hget.
  - apply _getNameById_Some in Hget as [Hn Hid]. f_equal.
    now apply (NoDup_fmap_eq id catalog).
  - exfalso. rewrite _getNameById_head in Hget.
    apply head_None in Hget.
    assert (Hf : name ∈ filter (fun n => id n = id name) catalog)
      by now apply list_elem_of_filter.
    rewrite Hget in Hf. now apply elem_of_nil in Hf.
Qed.

(** X15. [_getNameById] returns the first entry of the catalog with the id
    asked for, and [null] exactly when no entry has it; when the ids are
    unique, asking for the id of an entry gives this entry back. *)
Theorem getNameById_first (catalog : list DivineName) (nameId : Z) :
  _getNameById catalog nameId
    = head (filter (fun name => id name = nameId) catalog)
  ∧ (_getNameById catalog nameId = None ↔ nameId ∉ id <$> catalog)
  ∧ (NoDup (id <$> catalog) →
     ∀ name, name ∈ catalog → _getNameById catalog (id name) = Some name).
Proof.
  split; [apply _getNameById_head|]. split.
  - rewrite _getNameById_head, head_None. split.
    + intros Hnil (n & -> & Hin)%list_elem_of_fmap.
      assert (Hf : n ∈ filter (fun name => id name = id n) catalog)
        by now apply list_elem_of_filter.
      rewrite Hnil in Hf. now apply elem_of_nil in Hf.
    + intros Hnot. induction catalog as [|n rest IH]; [done|].
      rewrite filter_cons_False.
      * apply IH. intros Hin. apply Hnot. simpl. now right.
      * intros Heq. apply Hnot. simpl. rewrite <- Heq. now left.
  - intros Hnodup name Hin. now apply _getNameById_unique.
Qed.

(** ** The order and the number of the combinations *)

(** [a] is not after [b] in the order of the sort: by the id of the first
    entry, then by the id of the second. *)
Definition idsLe (a b : Combination) : Prop :=
  id (name1 a) < id (name1 b)
  ∨ (id (name1 a) = id (name1 b) ∧ id (name2 a) ≤ id (name2 b)).

Lemma compareCombinations_le a b :
  compareCombinations a b ≤ 0 ↔ idsLe a b.
Proof.
  unfold compareCombinations, idsLe.
  destruct (Z.eqb_spec (id (name1 a) - id (name1 b)) 0); simpl; lia.
Qed.

Lemma idsLe_trans a b c : idsLe a b → idsLe b c → idsLe a c.
Proof. unfold idsLe. lia. Qed.

Lemma idsLe_total a b : idsLe a b ∨ idsLe b a.
Proof. unfold idsLe. lia. Qed.

Lemma insertSorted_sorted x l :
  StronglySorted idsLe l →
  StronglySorted idsLe (insertSorted compareCombinations x l).
Proof.
  induction 1 as [|y l Hl IH Hy]; simpl.
  - repeat constructor.
  - destruct (Z.leb_spec (compareCombinations x y) 0) as [Hle|Hgt].
    + apply compareCombinations_le in Hle.
      constructor; [now constructor|].
      constructor; [done|].
      eapply Forall_impl; [exact Hy|]. intros z. now apply idsLe_trans.
    + constructor; [exact IH|].
      rewrite insertSorted_Permutation. constructor; [| exact Hy].
      destruct (idsLe_total y x) as [H|H]; [done|].
      apply compareCombinations_le in H. lia.
Qed.

Lemma sort_sorted l : StronglySorted idsLe (sort compareCombinations l).
Proof.
  induction l as [|x l IH]; simpl; [constructor|].
  now apply insertSorted_sorted.
Qed.

Lemma StronglySorted_take {A} (R : A → A → Prop) n l :
  StronglySorted R l → StronglySorted R (take n l).
Proof.
  intros H. revert n. induction H as [|x l Hl IH Hx]; intros [|n]; simpl;
    try constructor; [apply IH|].
  rewrite Forall_forall in Hx. apply Forall_forall.
  intros y Hy. apply Hx. eapply subseteq_take, Hy.
Qed.

(** X16. The combinations come sorted and limited: whatever the state of
    the matcher, the list returned by [findTwoNameCombination] is in
    ascending order of the id of the first entry and then of the id of the
    second, it has at most [limit] elements, [count] is its length, [found]
    tells whether it is not empty, and every [total] is the target. *)
Theorem findTwoNameCombination_sorted self loader abjadValue limit r :
  findTwoNameCombination self loader abjadValue limit = Ret r →
  StronglySorted idsLe (combinations r)
  ∧ (length (combinations r) ≤ limit)%nat
  ∧ pcount r = length (combinations r)
  ∧ (pfound r = true ↔ combinations r ≠ [])
  ∧ Forall (fun c => total c = abjadValue) (combinations r).
Proof.
  intros Hr.
  pose proof (findTwoNameCombination_Ret _ _ _ _ _ Hr)
    as (st' & Hloop & Hc & Hfound & Hcount & _).
  rewrite Hfound, Hcount, Hc.
  split; [apply StronglySorted_take, sort_sorted|].
  split; [rewrite length_take; lia|]. split; [done|]. split.
  - destruct (take limit _); simpl; [split; done|]. split; done.
  - apply Forall_take. rewrite sort_Permutation.
    eapply nameLoop_Forall; [| constructor | exact Hloop].
    intros; reflexivity.
Qed.


(** ** The canonical key determines the pair *)

Lemma uint_chars d :
  Forall (fun c => (48 ≤ c ≤ 57)%N) (lit (NilEmpty.string_of_uint d)).
Proof.
  induction d; simpl; try constructor; try done; simpl; lia.
Qed.

Lemma decimal_chars z : Forall (fun c => c ≠ 44%N) (lit (decimal z)).
Proof.
  assert (Hu : ∀ d, Forall (fun c => c ≠ 44%N)
                      (lit (NilZero.string_of_uint d))).
  { intros d. unfold NilZero.string_of_uint.
    destruct d; try (eapply Forall_impl; [apply uint_chars|];
                     simpl; intros c Hc; lia).
    repeat constructor. done. }
  unfold decimal, NilZero.string_of_int.
  destruct (Z.to_int z) as [d|d]; [apply Hu|].
  change (lit (String "-" ?s)) with (45%N :: lit s).
  constructor; [done | apply Hu].
Qed.

Lemma split_at_comma (s1 s2 t1 t2 : jsstring) :
  Forall (fun c => c ≠ 44%N) s1 → Forall (fun c => c ≠ 44%N) s2 →
  s1 ++ 44%N :: t1 = s2 ++ 44%N :: t2 → s1 = s2 ∧ t1 = t2.
Proof.
  intros H1. revert s2. induction H1 as [|c s1 Hc H1 IH]; intros s2 H2 Heq.
  - destruct H2 as [|d s2 Hd H2]; simpl in Heq.
    + now injection Heq as ->.
    + injection Heq as <- _. done.
  - destruct H2 as [|d s2 Hd H2]; simpl in Heq.
    + injection Heq as -> _. done.
    + injection Heq as -> Heq. apply IH in Heq as [-> ->]; done.
Qed.

Lemma JSON_stringify_pair_inj a b c d :
  JSON_stringify [a; b] = JSON_stringify [c; d] → a = c ∧ b = d.
Proof.
  assert (Hshape : ∀ x y,
            JSON_stringify [x; y]
            = 91%N :: (lit (decimal x) ++ 44%N :: lit (decimal y)) ++ [93%N]).
  { intros x y. unfold JSON_stringify. cbn [fmap list_fmap join].
    change (lit "[") with [91%N]. change (lit ",") with [44%N].
    change (lit "]") with [93%N]. cbn [String_of_number].
    simpl app. reflexivity. }
  rewrite !Hshape. intros [= Heq].
  apply app_inj_tail in Heq as [Heq _].
  apply split_at_comma in Heq as [Ha Hb]; try apply decimal_chars.
  split; apply decimal_inj, lit_inj; done.
Qed.

Lemma sortPair_cases a b :
  sortPair a b = [a; b] ∨ sortPair a b = [b; a].
Proof. unfold sortPair. destruct (String.ltb _ _); auto. Qed.

Lemma canonical_inj a b c d :
  canonical a b = canonical c d → (a = c ∧ b = d) ∨ (a = d ∧ b = c).
Proof.
  unfold canonical.
  destruct (sortPair_cases a b) as [Hab|Hab];
    destruct (sortPair_cases c d) as [Hcd|Hcd];
    rewrite Hab, Hcd; intros [-> ->]%JSON_stringify_pair_inj; auto.
Qed.

(** ** What the search finds *)

Lemma copy_name (n : DivineName) :
  mkName (id n) (arabic_name n) (english_name n) (abjad_value n) (meaning n)
  = n.
Proof. now destruct n. Qed.

Lemma combine_found catalog abjadValue name1 name2Id name2 :
  _getNameById catalog name2Id = Some name2 →
  combine abjadValue name1 name2Id name2
  = mkCombination name1 name2 abjadValue.
Proof.
  intros Hget. apply _getNameById_Some in Hget as [_ Hid].
  subst name2Id. unfold combine.
  now rewrite !copy_name.
Qed.

Section search.
Variable catalog : list DivineName.
Variable abjadValue : jsnum.

(** What one run of the inner loop records and pushes. *)
Lemma pairLoop_run name1 name2Ids recorded l :
  ∃ recorded' new,
    pairLoop catalog abjadValue name1 name2Ids (recorded, l)
    = (recorded', l ++ new)
    ∧ recorded ⊆ recorded'
    ∧ (∀ name2Id, name2Id ∈ name2Ids → id name1 ≠ name2Id →
         canonical (id name1) name2Id ∈ recorded')
    ∧ (∀ k, k ∈ recorded' →
         k ∈ recorded
         ∨ (∃ c, c ∈ new ∧ key c = k)
         ∨ ∃ name2Id, name2Id ∈ name2Ids
                      ∧ _getNameById catalog name2Id = None)
    ∧ (∀ c, c ∈ new →
         ∃ name2Id name2,
           name2Id ∈ name2Ids ∧ id name1 ≠ name2Id
           ∧ (canonical (id name1) name2Id ∉ recorded)
           ∧ _getNameById catalog name2Id = Some name2
           ∧ c = mkCombination name1 name2 abjadValue).
Proof.
  revert recorded l.
  induction name2Ids as [|name2Id rest IH]; intros recorded l; simpl.
  { exists recorded, []. rewrite app_nil_r. repeat split; try done.
    - intros i Hi. now apply elem_of_nil in Hi.
    - intros k Hk. now left.
    - intros c Hc. now apply elem_of_nil in Hc. }
  destruct (Z.eqb_spec (id name1) name2Id) as [Heq|Hne].
  { destruct (IH recorded l) as (rec' & new & -> & Hsub & Hcov & Hback & Hnew).
    exists rec', new. repeat split; try done.
    - intros i [->|Hi]%elem_of_cons Hi'; [done | now apply Hcov].
    - intros k Hk. destruct (Hback k Hk) as [?|[?|(i & Hi & Hnone)]];
        [now left | right; now left |].
      right. right. exists i. split; [now right | done].
    - intros c Hc. destruct (Hnew c Hc) as (i & n2 & Hi & ?).
      exists i, n2. split; [now right | done]. }
  case_bool_decide as Hrec.
  { destruct (IH recorded l) as (rec' & new & -> & Hsub & Hcov & Hback & Hnew).
    exists rec', new. repeat split; try done.
    - intros i [->|Hi]%elem_of_cons Hi'; [now apply Hsub | now apply Hcov].
    - intros k Hk. destruct (Hback k Hk) as [?|[?|(i & Hi & Hnone)]];
        [now left | right; now left |].
      right. right. exists i. split; [now right | done].
    - intros c Hc. destruct (Hnew c Hc) as (i & n2 & Hi & ?).
      exists i, n2. split; [now right | done]. }
  destruct (_getNameById catalog name2Id) as [name2|] eqn:Hget.
  - destruct (IH ({[canonical (id name1) name2Id]} ∪ recorded)
                (l ++ [mkCombination
                         (mkName (id name1) (arabic_name name1)
                            (english_name name1) (abjad_value name1)
                            (meaning name1))
                         (mkName name2Id (arabic_name name2)
                            (english_name name2) (abjad_value name2)
                            (meaning name2)) abjadValue]))
      as (rec' & new & -> & Hsub & Hcov & Hback & Hnew).
    pose proof (combine_found _ abjadValue name1 _ _ Hget) as Hc0.
    unfold combine in Hc0. rewrite Hc0 in *.
    exists rec', (mkCombination name1 name2 abjadValue :: new).
    rewrite <- app_assoc. repeat split; try done.
    + set_solver.
    + intros i [->|Hi]%elem_of_cons Hi'; [| now apply Hcov].
      apply Hsub. set_solver.
    + intros k Hk. destruct (Hback k Hk) as [Hin|[(c & Hc & Hk')|Hnone]].
      * apply elem_of_union in Hin as [Hin%elem_of_singleton|Hin];
          [| now left].
        right. left.
        exists (mkCombination name1 name2 abjadValue). split; [left|].
        unfold key. simpl.
        apply _getNameById_Some in Hget as [_ Hid]. now subst name2Id.
      * right. left. exists c. split; [now right | done].
      * right. right.
        destruct Hnone as (i & Hi & Hnone). exists i.
        split; [now right | done].
    + intros c [->|Hc]%elem_of_cons.
      * exists name2Id, name2. repeat split; try done. left.
      * destruct (Hnew c Hc) as (i & n2 & Hi & Hne' & Hnot & Hg & ->).
        exists i, n2. repeat split; try done; [now right|].
        intros Hin. apply Hnot. set_solver.
  - destruct (IH ({[canonical (id name1) name2Id]} ∪ recorded) l)
      as (rec' & new & -> & Hsub & Hcov & Hback & Hnew).
    exists rec', new. repeat split; try done.
    + set_solver.
    + intros i [->|Hi]%elem_of_cons Hi'; [| now apply Hcov].
      apply Hsub. set_solver.
    + intros k Hk. destruct (Hback k Hk) as [Hin|[Hc|Hnone]].
      * apply elem_of_union in Hin as [Hin%elem_of_singleton|Hin];
          [| now left].
        right. right. exists name2Id. split; [left | done].
      * right. now left.
      * right. right.
        destruct Hnone as (i & Hi & Hnone). exists i.
        split; [now right | done].
    + intros c Hc. destruct (Hnew c Hc) as (i & n2 & Hi & Hne' & Hnot & Hg & ->).
      exists i, n2. repeat split; try done; [now right|].
      intros Hin. apply Hnot. set_solver.
Qed.

End search.

(** Two entries that make a pair for the target [v]. *)
Definition partners (v : Z) (n1 n2 : DivineName) : Prop :=
  id n1 ≠ id n2 ∧ abjad_value n1 + abjad_value n2 = v.

(** [a] stands before [b] in the catalog. *)
Definition before (catalog : list DivineName) (a b : DivineName) : Prop :=
  ∃ l1 l2 l3, catalog = l1 ++ a :: l2 ++ b :: l3.

Lemma before_elem_of catalog a b :
  before catalog a b → a ∈ catalog ∧ b ∈ catalog.
Proof. intros (l1 & l2 & l3 & ->). set_solver. Qed.

Section complete.
Variable catalog : list DivineName.
Variable v : Z.
Hypothesis Hnodup : NoDup (id <$> catalog).

(** The state of the search once the entries [done] have been tried as first
    entry: every pair with a first entry among them is recorded, every
    recorded key has its combination, and every combination is made of a
    catalog entry and a later one. *)
Definition searched (done : list DivineName)
    (st : gset jsstring * list Combination) : Prop :=
  (∀ n1 n2, n1 ∈ done → n2 ∈ catalog → partners v n1 n2 →
            canonical (id n1) (id n2) ∈ st.1)
  ∧ (∀ k, k ∈ st.1 → ∃ c, c ∈ st.2 ∧ key c = k)
  ∧ (∀ c, c ∈ st.2 → before catalog (name1 c) (name2 c)).

Lemma ids_at_value name2Ids z i :
  _buildValueMap catalog !! z = Some name2Ids → i ∈ name2Ids →
  ∃ n, n ∈ catalog ∧ id n = i ∧ abjad_value n = z.
Proof.
  rewrite _buildValueMap_lookup. intros Hids Hi.
  assert (Hin : i ∈ id <$> namesAt catalog z).
  { destruct (id <$> namesAt catalog z); [discriminate | congruence]. }
  apply list_elem_of_fmap in Hin as (n & -> & Hn).
  apply list_elem_of_filter in Hn as [Hval Hcat]. eauto.
Qed.

Lemma value_has_ids n z :
  n ∈ catalog → abjad_value n = z →
  ∃ name2Ids, _buildValueMap catalog !! z = Some name2Ids ∧ id n ∈ name2Ids.
Proof.
  intros Hin Hval. rewrite _buildValueMap_lookup.
  assert (Hn : id n ∈ id <$> namesAt catalog z).
  { apply list_elem_of_fmap_2. now apply list_elem_of_filter. }
  destruct (id <$> namesAt catalog z) as [|i l]; [now apply elem_of_nil in Hn|].
  eauto.
Qed.

Lemma nameLoop_searched done names st st' :
  catalog = done ++ names →
  searched done st →
  nameLoop catalog (_buildValueMap catalog) (dom (_buildValueMap catalog))
    (Int v) names st = Ret st' →
  searched catalog st'.
Proof.
  revert done st.
  induction names as [|name1 rest IH]; intros done [recorded l] Hcat Hst; simpl.
  { rewrite app_nil_r in Hcat. subst done. now intros [= <-]. }
  assert (Hcat' : catalog = (done ++ [name1]) ++ rest)
    by now rewrite <- app_assoc.
  destruct Hst as (Hcover & Hlist & Horient). simpl in *.
  destruct (bool_decide (v - abjad_value name1 ∈ dom (_buildValueMap catalog)))
    eqn:Hhas.
  - apply bool_decide_eq_true in Hhas.
    apply elem_of_dom in Hhas as [name2Ids Hids]. rewrite Hids.
    destruct (pairLoop_run catalog (Int v) name1 name2Ids recorded l)
      as (rec' & new & -> & Hsub & Hcov & Hback & Hnew).
    apply (IH (done ++ [name1])); [exact Hcat'|].
    split; [| split]; simpl.
    + intros n1 n2 [Hn1|Hn1]%elem_of_app Hn2 Hp.
      * apply Hsub. now apply Hcover.
      * apply list_elem_of_singleton in Hn1. subst n1.
        destruct Hp as [Hne Hsum]. apply Hcov; [| done].
        destruct (value_has_ids n2 (v - abjad_value name1) Hn2) as (ids & Hl & Hi);
          [lia|]. congruence.
    + intros k Hk. destruct (Hback k Hk) as [Hold|[(c & Hc & Hkey)|Hnone]].
      * destruct (Hlist k Hold) as (c & Hc & Hkey). exists c.
        split; [apply elem_of_app; now left | done].
      * exists c. split; [apply elem_of_app; now right | done].
      * exfalso. destruct Hnone as (i & Hi & Hnone).
        destruct (ids_at_value _ _ _ Hids Hi) as (n & Hn & <- & _).
        now rewrite (_getNameById_unique catalog n Hnodup Hn) in Hnone.
    + intros c [Hc|Hc]%elem_of_app; [now apply Horient|].
      destruct (Hnew c Hc) as (i & name2 & Hi & Hne & Hnot & Hget & ->).
      simpl.
      destruct (ids_at_value _ _ _ Hids Hi) as (n & Hn & Hid & Hval).
      rewrite <- Hid, (_getNameById_unique catalog n Hnodup Hn) in Hget.
      injection Hget as <-. subst i.
      assert (Hwhere : n ∈ done ∨ n = name1 ∨ n ∈ rest).
      { rewrite Hcat in Hn. set_solver. }
      destruct Hwhere as [Hdone|[->|Hrest]].
      * exfalso. apply Hnot. rewrite canonical_comm.
        apply Hcover; [done | rewrite Hcat; set_solver|].
        split; [done | lia].
      * done.
      * apply list_elem_of_split in Hrest as (l2 & l3 & ->).
        exists done, l2, l3. exact Hcat.
  - apply bool_decide_eq_false in Hhas.
    apply (IH (done ++ [name1])); [exact Hcat'|].
    split; [| split]; simpl; try done.
    intros n1 n2 [Hn1|Hn1]%elem_of_app Hn2 Hp; [now apply Hcover|].
    apply list_elem_of_singleton in Hn1. subst n1. exfalso.
    destruct Hp as [_ Hsum]. apply Hhas.
    destruct (value_has_ids n2 (v - abjad_value name1) Hn2) as (ids & Hl & _);
      [lia|].
    apply elem_of_dom. eauto.
Qed.

End complete.

(** The untruncated list of the search, and its properties. *)
Lemma findTwoNameCombination_searched self loader v limit r :
  valueToIds self = _buildValueMap (DataLoader.divineNames loader) →
  NoDup (id <$> DataLoader.divineNames loader) →
  findTwoNameCombination self loader (Int v) limit = Ret r →
  ∃ st, searched (DataLoader.divineNames loader) v
          (DataLoader.divineNames loader) st
        ∧ combinations r = take limit (sort compareCombinations st.2).
Proof.
  intros Hfresh Hnodup (st' & Hloop & Hc & _)%findTwoNameCombination_Ret.
  exists st'. split; [| exact Hc].
  rewrite Hfresh in Hloop.
  apply (nameLoop_searched _ v Hnodup [] (DataLoader.divineNames loader)
           (∅, []) st'); [done | | exact Hloop].
  split; [| split]; simpl.
  - intros n1 n2 Hn1. now apply elem_of_nil in Hn1.
  - intros k Hk. now apply elem_of_empty in Hk.
  - intros c Hc'. now apply elem_of_nil in Hc'.
Qed.



(** X18. Below the limit nothing is left out: under the same two
    conditions, when fewer than [limit] combinations are returned, every two
    entries of the catalog with different ids whose values add up to the
    target are returned together as a combination, in one order or the
    other. *)
Theorem pair_search_lists_every_pair self loader (v : Z) (limit : nat) r
    (n1 n2 : DivineName) :
  valueToIds self = _buildValueMap (DataLoader.divineNames loader) →
  NoDup (id <$> DataLoader.divineNames loader) →
  findTwoNameCombination self loader (Int v) limit = Ret r →
  (pcount r < limit)%nat →
  n1 ∈ DataLoader.divineNames loader → n2 ∈ DataLoader.divineNames loader →
  id n1 ≠ id n2 → abjad_value n1 + abjad_value n2 = v →
  ∃ c, c ∈ combinations r
       ∧ ((name1 c = n1 ∧ name2 c = n2) ∨ (name1 c = n2 ∧ name2 c = n1)).
Proof.
  intros Hfresh Hnodup Hr Hcount Hn1 Hn2 Hne Hsum.
  pose proof (findTwoNameCombination_Ret _ _ _ _ _ Hr)
    as (_ & _ & _ & _ & Hpcount & _).
  destruct (findTwoNameCombination_searched _ _ _ _ _ Hfresh Hnodup Hr)
    as ([recorded l] & (Hcover & Hlist & Horient) & Hc).
  simpl in *.
  destruct (Hlist _ (Hcover n1 n2 Hn1 Hn2 (conj Hne Hsum)))
    as (c & Hcl & Hkey).
  exists c. split.
  - rewrite Hc, take_ge.
    + now rewrite sort_Permutation.
    + rewrite Hpcount, Hc, length_take in Hcount. lia.
  - apply Horient, before_elem_of in Hcl as [H1 H2].
    unfold key in Hkey.
    apply canonical_inj in Hkey as [[Ha Hb]|[Ha Hb]]; [left | right];
      split; apply (NoDup_fmap_eq id (DataLoader.divineNames loader)); done.
Qed.


End NameMatcherMore.

(* ====================================================================== *)
(** * Properties of [parseInt] *)
(* ====================================================================== *)

Module ParseIntFacts.

















End ParseIntFacts.

(* ====================================================================== *)
(** * Properties of the public API *)
(* ====================================================================== *)

Module APIFacts.
Import Catalog.

Local Arguments TextProcessor.processNameInput_string : simpl never.
Local Arguments AbjadCalculator.calculateAbjadValue : simpl never.
Local Arguments NameMatcher.findMatch : simpl never.
Local Arguments parseInt_string : simpl never.
Local Arguments lit : simpl never.

(** The loader and the matcher that a call finds, or creates. *)
Definition loaderOf (w : World) : DataLoader.t :=
  default DataLoader.new (_dataLoader w).

Definition matcherOf (w : World) : NameMatcher.t :=
  default (NameMatcher.new (loaderOf w)) (_matcher w).

(** The singletons after [getCalculator()], and after [getMatcher()]. *)
Definition afterCalculator (w : World) : World :=
  mkWorld (Some (loaderOf w)) true (_matcher w).

Definition afterMatcher (w : World) : World :=
  mkWorld (Some (loaderOf w)) (_calculator w) (Some (matcherOf w)).

(** The response built from the calculator's result. *)
Definition respond (name : jsval) (calcResult : AbjadCalculator.CalculationResult)
    : CalcResponse :=
  if negb (AbjadCalculator.success calcResult)
  then CalcFailure (join (lit ", ") (AbjadCalculator.errors calcResult))
  else
    CalcSuccess
      (mkCalculation
         (AbjadCalculator.totalValue calcResult)
         name
         (AbjadCalculator.inputName calcResult)
         (imap (fun i item =>
                  mkItem (i + 1) (AbjadCalculator.character item)
                    (AbjadCalculator.value item))
            (AbjadCalculator.characterBreakdown calcResult))
         (AbjadCalculator.charCount calcResult)).

Lemma calculateAbjad_string x w :
  let p := TextProcessor.processNameInput_string x false in
  calculateAbjad (JString x) w
  = if TextProcessor.success p.2
    then
      (Ret (match AbjadCalculator.calculateAbjadValue (loaderOf w)
                    (JString p.1) with
            | Ret calcResult => respond (JString x) calcResult
            | Throw error => CalcFailure (message error)
            end),
       afterCalculator w)
    else
      (Ret (CalcFailure
              (lit "Invalid input: "
               ++ join (lit ", ") (TextProcessor.errors p.2))),
       w).
Proof.
  intros p. unfold calculateAbjad, tryCatch, mbind, M_bind, lift. simpl.
  fold p. destruct p as [cleaned status]. simpl.
  destruct (TextProcessor.success status); simpl; [| reflexivity].
  unfold getCalculator, getDataLoader, afterCalculator, loaderOf, respond.
  destruct w as [[loader|] [|] matcher]; simpl;
    destruct (AbjadCalculator.calculateAbjadValue _ _) as [r|e]; simpl;
    try reflexivity;
    destruct (AbjadCalculator.success r); reflexivity.
Qed.

Lemma calculateAbjad_other v w :
  (∀ s, v ≠ JString s) →
  calculateAbjad v w = (Ret (CalcFailure (message (trim_type_error v))), w).
Proof.
  intros Hv. destruct v as [| |n|s]; try reflexivity. now destruct (Hv s).
Qed.

(** The response built from the matcher's result. *)
Definition respondMatch (abjadValue : jsnum)
    (matchResult : outcome NameMatcher.MatchResult) : MatchResponse :=
  match matchResult with
  | Ret (NameMatcher.direct_match r) =>
      MatchDirect (NameMatcher.found r) (NameMatcher.divineNames r)
        (NameMatcher.count r)
  | Ret (NameMatcher.two_name_combination r) =>
      MatchPair (NameMatcher.pfound r) abjadValue
        (NameMatcher.combinations r) (NameMatcher.pcount r)
  | Throw error => MatchFailure (message error)
  end.

Definition given (v : jsval) : Prop := v ≠ JNull ∧ v ≠ JUndefined.

Lemma matchDivineNames_given v w :
  given v →
  matchDivineNames v w
  = (Ret (respondMatch (parseInt_string (ToString v))
            (NameMatcher.findMatch (matcherOf w) (loaderOf w)
               (parseInt_string (ToString v)))),
     afterMatcher w).
Proof.
  intros [Hnull Hundef].
  assert (Hbody :
    matchDivineNames v w
    = tryCatch
        (matcher ← getMatcher;
         loader ← getDataLoader;
         matchResult ←
           lift (NameMatcher.findMatch matcher loader
                   (parseInt_string (ToString v)));
         match matchResult with
         | NameMatcher.direct_match r =>
             mret (MatchDirect (NameMatcher.found r)
                     (NameMatcher.divineNames r) (NameMatcher.count r))
         | NameMatcher.two_name_combination r =>
             mret (MatchPair (NameMatcher.pfound r)
                     (parseInt_string (ToString v))
                     (NameMatcher.combinations r) (NameMatcher.pcount r))
         end)
        (fun error => mret (MatchFailure (message error))) w).
  { destruct v; try done. }
  rewrite Hbody.
  unfold tryCatch, mbind, M_bind, lift, getMatcher, getDataLoader,
    afterMatcher, matcherOf, loaderOf, respondMatch.
  destruct w as [[loader|] calc [matcher|]]; simpl;
    destruct (NameMatcher.findMatch _ _ _) as [[r|r]|e]; reflexivity.
Qed.

Lemma matchDivineNames_missing v w :
  ¬ given v →
  matchDivineNames v w = (Ret (MatchFailure (lit "Abjad value is required")), w).
Proof.
  intros Hv. destruct v as [| |n|s]; try reflexivity;
    exfalso; apply Hv; split; discriminate.
Qed.

(** [findMatch] either returns, or throws the loader's error. *)
Lemma findMatch_outcome self loader abjadValue :
  (size (DataLoader.namesIndex loader) ≠ 0%nat
   ∧ ∃ r, NameMatcher.findMatch self loader abjadValue = Ret r)
  ∨ (size (DataLoader.namesIndex loader) = 0%nat
     ∧ NameMatcher.findMatch self loader abjadValue
       = Throw (Error (lit "Names index not loaded. Call loadAll() first."))).
Proof.
  unfold NameMatcher.findMatch.
  destruct (decide (size (DataLoader.namesIndex loader) = 0%nat)) as [Hz|Hnz].
  - right. split; [done|].
    now rewrite (NameMatcherFacts.findDirectMatch_unloaded _ _ Hz).
  - left. split; [done|].
    destruct (NameMatcherFacts.findDirectMatch_loaded loader abjadValue Hnz)
      as [d ->].
    simpl. destruct (NameMatcher.found d); [eauto|].
    destruct (NameMatcherFacts.findTwoNameCombination_returns self loader
                abjadValue 10) as [p ->].
    simpl. eauto.
Qed.


Lemma processNameInput_success x b :
  TextProcessor.success (TextProcessor.processNameInput_string x b).2 = true →
  (TextProcessor.processNameInput_string x b).1 ≠ [].
Proof.
  unfold TextProcessor.processNameInput_string.
  destruct (TextProcessor.removeSpaces x); [discriminate|].
  destruct (TextProcessor.validateLoop _ _ _ _) as [cleaned nonArabicChars].
  destruct (TextProcessor.removeSpaces cleaned); [discriminate | done].
Qed.

Lemma calculateAbjadValue_unloaded loader c rest :
  size (DataLoader.abjadValues loader) = 0%nat →
  AbjadCalculator.calculateAbjadValue loader (JString (c :: rest))
  = Throw (Error (lit "Abjad values not loaded. Call loadAll() first.")).
Proof.
  intros Hsize. unfold AbjadCalculator.calculateAbjadValue.
  cbn [AbjadCalculator.falsy].
  now rewrite (AbjadCalculatorFacts.processChars_unloaded _ _ _ _ _ Hsize).
Qed.



(** C9. No public entry point throws: [calculateAbjad] and
    [matchDivineNames] return a response for every argument and every state
    of the singletons. While the table of weights is empty,
    [calculateAbjad] answers with a failure, which carries the loader's
    "not loaded" message whenever the input passes the normalizer (and the
    table is therefore queried); an argument that is not a string is
    answered with the message of the [TypeError]; and while the names index
    is empty, [matchDivineNames] answers a given value with the loader's
    "not loaded" message. *)
Theorem no_entry_point_throws :
  (∀ v w, ∃ r, (calculateAbjad v w).1 = Ret r)
  ∧ (∀ v w, ∃ r, (matchDivineNames v w).1 = Ret r)
  ∧ (∀ x w,
       size (DataLoader.abjadValues (loaderOf w)) = 0%nat →
       TextProcessor.success
         (TextProcessor.processNameInput_string x false).2 = true →
       (calculateAbjad (JString x) w).1
       = Ret (CalcFailure
                (lit "Abjad values not loaded. Call loadAll() first.")))
  ∧ (∀ v w,
       size (DataLoader.abjadValues (loaderOf w)) = 0%nat →
       ∃ error, (calculateAbjad v w).1 = Ret (CalcFailure error))
  ∧ (∀ v w,
       (∀ s, v ≠ JString s) →
       (calculateAbjad v w).1
       = Ret (CalcFailure (message (trim_type_error v))))
  ∧ (∀ v w,
       given v →
       size (DataLoader.namesIndex (loaderOf w)) = 0%nat →
       (matchDivineNames v w).1
       = Ret (MatchFailure
                (lit "Names index not loaded. Call loadAll() first."))).
Proof.
  assert (Hunloaded : ∀ x w,
    size (DataLoader.abjadValues (loaderOf w)) = 0%nat →
    TextProcessor.success
      (TextProcessor.processNameInput_string x false).2 = true →
    (calculateAbjad (JString x) w).1
    = Ret (CalcFailure
             (lit "Abjad values not loaded. Call loadAll() first."))).
  { intros x w Hsize Hok. rewrite calculateAbjad_string. cbv zeta.
    rewrite Hok. simpl.
    apply processNameInput_success in Hok.
    destruct (TextProcessor.processNameInput_string x false).1 as [|c rest];
      [done|].
    now rewrite (calculateAbjadValue_unloaded _ _ _ Hsize). }
  assert (Hother : ∀ v w,
    (∀ s, v ≠ JString s) →
    (calculateAbjad v w).1 = Ret (CalcFailure (message (trim_type_error v)))).
  { intros v w Hv. now rewrite calculateAbjad_other. }
  repeat split; try done.
  - intros v w. destruct v as [| |n|x];
      try (rewrite calculateAbjad_other by done; simpl; eauto).
    rewrite calculateAbjad_string. cbv zeta.
    destruct (TextProcessor.success _); simpl; eauto.
  - intros v w. destruct v as [| |n|s];
      try (rewrite matchDivineNames_missing
             by (intros [? ?]; congruence); simpl; eauto);
      rewrite matchDivineNames_given by (split; discriminate); simpl; eauto.
  - intros v w Hsize. destruct v as [| |n|x];
      try (rewrite Hother by done; eauto).
    destruct (TextProcessor.success
                (TextProcessor.processNameInput_string x false).2) eqn:Hok.
    + rewrite (Hunloaded x w Hsize Hok). eauto.
    + rewrite calculateAbjad_string. cbv zeta. rewrite Hok. simpl. eauto.
  - intros v w Hv Hsize. rewrite matchDivineNames_given by done. simpl.
    destruct (findMatch_outcome (matcherOf w) (loaderOf w)
                (parseInt_string (ToString v))) as [[Hnz _]|[_ ->]]; done.
Qed.


(** ** The matcher's value map and the catalog *)

(** The value map that a search will use is the one of the current
    catalog. *)
Definition fresh (w : World) : Prop :=
  NameMatcher.valueToIds (matcherOf w)
  = NameMatcher._buildValueMap (DataLoader.divineNames (loaderOf w)).

Lemma fresh_without_matcher w : _matcher w = None → fresh w.
Proof. unfold fresh, matcherOf. now intros ->. Qed.

Lemma fresh_afterMatcher w : fresh w → fresh (afterMatcher w).
Proof. unfold fresh, afterMatcher, matcherOf, loaderOf. simpl. auto. Qed.

(** A start-up made before any search leaves the singletons [fresh], and
    so does every search made from then on; the pairs that such a search
    reports are sound when the ids of the catalog are unique. *)
Lemma initializeApp_fresh ABJAD_VALUES DIVINE_NAMES w :
  _matcher w = None → fresh (initializeApp ABJAD_VALUES DIVINE_NAMES w).2.
Proof.
  intros Hnone. apply fresh_without_matcher.
  unfold initializeApp.
  unfold initializeCalculator, mbind, M_bind, modify, getDataLoader.
  destruct (_dataLoader w); exact Hnone.
Qed.

Lemma matchDivineNames_pairs_sound v w w' found target combinations count :
  fresh w →
  NoDup (id <$> DataLoader.divineNames (loaderOf w)) →
  matchDivineNames v w
    = (Ret (MatchPair found target combinations count), w') →
  fresh w'
  ∧ Forall (fun c =>
              id (NameMatcher.name1 c) ≠ id (NameMatcher.name2 c)
              ∧ Int (abjad_value (NameMatcher.name1 c)
                     + abjad_value (NameMatcher.name2 c)) = target)
      combinations.
Proof.
  intros Hfresh Hnodup.
  assert (given v ∨ ¬ given v) as [Hv|Hv].
  { destruct v; [right | right | left | left];
      first [split; discriminate | intros [? ?]; congruence]. }
  - rewrite matchDivineNames_given by done. unfold respondMatch.
    destruct (NameMatcher.findMatch _ _ _) as [[d|p]|e] eqn:Hfind;
      try discriminate.
    intros [= <- <- <- <- <-].
    split; [now apply fresh_afterMatcher|].
    apply NameMatcherFacts.findMatch_pair in Hfind as [_ Hpair].
    exact (NameMatcherFacts.findTwoNameCombination_sound _ _ _ _ _
             Hfresh Hnodup Hpair).
  - rewrite matchDivineNames_missing by done. discriminate.
Qed.

(** Nothing in [initializeCalculator] touches the matcher. *)
Lemma initializeCalculator_matcher abjadValues divineNames namesIndex w :
  _matcher (initializeCalculator abjadValues divineNames namesIndex w).2
  = _matcher w.
Proof.
  unfold initializeCalculator, mbind, M_bind, modify, getDataLoader.
  destruct (_dataLoader w); reflexivity.
Qed.

(** C5. Hot reload: after a start-up with one catalog, a search, and a
    second start-up with another catalog, the direct lookup follows the new
    index but the pair search still uses the value map built from the first
    catalog: the new pair E + F = 30 is not found, and the pair C + D is
    reported for 66 although 40 + 5 = 45; a first start-up with the second
    catalog finds E + F for 30 and nothing for 66. *)
Theorem hot_reload_keeps_old_value_map :
  let pair (n1 n2 : DivineName) (t : Z) :=
    NameMatcher.mkCombination n1 n2 (Int t) in
  (matchDivineNames (JNumber (Int 30)) Sample.reloaded).1
    = Ret (MatchPair false (Int 30) [] 0)
  ∧ (matchDivineNames (JNumber (Int 66)) Sample.reloaded).1
    = Ret (MatchPair true (Int 66) [pair Sample.C Sample.D 66] 1)
  ∧ (matchDivineNames (JNumber (Int 40)) Sample.reloaded).1
    = Ret (MatchDirect true [Sample.C] 1)
  ∧ (matchDivineNames (JNumber (Int 30)) Sample.started2).1
    = Ret (MatchPair true (Int 30) [pair Sample.E Sample.F 30] 1)
  ∧ (matchDivineNames (JNumber (Int 66)) Sample.started2).1
    = Ret (MatchPair false (Int 66) [] 0)
  ∧ _matcher Sample.reloaded = _matcher Sample.searched.
Proof. vm_compute. repeat split; reflexivity. Qed.

End APIFacts.

(* ====================================================================== *)
(** * More on the public API and the page controller *)
(* ====================================================================== *)

Module APIMore.
Import Catalog APIFacts.

Local Arguments TextProcessor.processNameInput_string : simpl never.
Local Arguments AbjadCalculator.calculateAbjadValue : simpl never.
Local Arguments NameMatcher.findMatch : simpl never.
Local Arguments NameMatcher.findTwoNameCombination : simpl never.
Local Arguments parseInt_string : simpl never.
Local Arguments lit : simpl never.


Lemma matcherOf_afterCalculator w : matcherOf (afterCalculator w) = matcherOf w.
Proof. reflexivity. Qed.

Lemma fresh_afterCalculator w : fresh w → fresh (afterCalculator w).
Proof. unfold fresh. now rewrite matcherOf_afterCalculator. Qed.

(** A successful answer of [calculateAbjad], read backwards. *)
Lemma calculateAbjad_success x w c w' :
  calculateAbjad (JString x) w = (Ret (CalcSuccess c), w') →
  let p := TextProcessor.processNameInput_string x false in
  TextProcessor.success p.2 = true
  ∧ w' = afterCalculator w
  ∧ ∃ r, AbjadCalculator.calculateAbjadValue (loaderOf w) (JString p.1) = Ret r
         ∧ AbjadCalculator.success r = true
         ∧ c = mkCalculation (AbjadCalculator.totalValue r) (JString x)
                 (AbjadCalculator.inputName r)
                 (imap (fun i item =>
                          mkItem (i + 1) (AbjadCalculator.character item)
                            (AbjadCalculator.value item))
                    (AbjadCalculator.characterBreakdown r))
                 (AbjadCalculator.charCount r).
Proof.
  rewrite calculateAbjad_string. cbv zeta.
  destruct (TextProcessor.success _); [| discriminate].
  destruct (AbjadCalculator.calculateAbjadValue _ _) as [r|e] eqn:Hr;
    [| discriminate].
  unfold respond. destruct (AbjadCalculator.success r) eqn:Hs; simpl;
    [| discriminate].
  intros [= <- <-]. split; [done|]. split; [done|]. now exists r.
Qed.

Lemma StronglySorted_lt_above (l : list nat) m i n :
  StronglySorted lt l → Forall (fun y => m ≤ y)%nat l → l !! i = Some n →
  (m + i ≤ n)%nat.
Proof.
  intros Hs. revert m i n.
  induction Hs as [|x l Hs IH Hall]; intros m [|i] n Hm; simpl; try done.
  - intros [= <-]. apply Forall_cons in Hm as [Hx _]. lia.
  - intros Hi. apply Forall_cons in Hm as [Hx _].
    assert (S x + i ≤ n)%nat; [| lia].
    apply IH; [| done]. eapply Forall_impl; [exact Hall|]. simpl. lia.
Qed.

Lemma StronglySorted_lt_lookup (l : list nat) i n :
  StronglySorted lt l → l !! i = Some n → (i ≤ n)%nat.
Proof.
  intros Hs Hi. apply (StronglySorted_lt_above l 0 i n Hs); [| done].
  apply Forall_forall. lia.
Qed.

(** X20. What [calculateAbjad] counts: in a successful answer
    [cleanedName] is the cleaned text of the normalizer and [inputName] the
    argument; at least one and at most as many letters are counted as the
    cleaned text has characters; every entry of the breakdown is a character
    of the cleaned text, found at an index not below the entry's position
    minus one, which is neither a diacritical mark nor a variant form, and
    which the weight table maps to the entry's value, never 0. *)
Theorem calculateAbjad_letters (x : jsstring) (w w' : World) (c : Calculation) :
  calculateAbjad (JString x) w = (Ret (CalcSuccess c), w') →
  let cleaned := (TextProcessor.processNameInput_string x false).1 in
  inputName c = JString x
  ∧ cleanedName c = JString cleaned
  ∧ (1 ≤ charCount c ≤ length cleaned)%nat
  ∧ ∀ item, item ∈ characterBreakdown c →
      (∃ i, cleaned !! i = Some (character item)
            ∧ (position item ≤ i + 1)%nat)
      ∧ TextProcessor.isDiacritic (character item) = false
      ∧ TextProcessor.prop TextProcessor.ARABIC_CHAR_VARIANTS (character item)
        = None
      ∧ DataLoader.abjadValues (loaderOf w) !! [character item]
        = Some (value item)
      ∧ value item ≠ 0.
Proof.
  intros (_ & _ & r & Hr & Hs & ->)%calculateAbjad_success cleaned.
  fold cleaned in Hr.
  pose proof (AbjadCalculatorFacts.calculateAbjadValue_Ret _ _ _ Hr)
    as (Hname & _ & _ & _).
  pose proof (AbjadCalculatorMore.calculateAbjadValue_string _ _ _ Hr)
    as (Hbreak & _ & Hcount & Hlen & Hsucc & _).
  simpl. split; [done|]. split; [done|]. split.
  - rewrite Hcount. rewrite Hs in Hsucc.
    assert (Hw : length (AbjadCalculatorMore.weights (loaderOf w) cleaned)
                 = length (AbjadCalculatorFacts.included (loaderOf w) cleaned 0)).
    { rewrite <- (AbjadCalculatorMore.included_values _ _ 0).
      apply length_fmap. }
    destruct (Nat.eqb_spec
                (length (AbjadCalculatorMore.weights (loaderOf w) cleaned)) 0);
      [discriminate | lia].
  - intros item Hin.
    apply elem_of_lookup_imap in Hin as (i & y & -> & Hy). simpl.
    rewrite Hbreak in Hy.
    assert (Hyin : y ∈ AbjadCalculatorFacts.included (loaderOf w) cleaned 0)
      by now apply list_elem_of_lookup_2 in Hy.
    apply AbjadCalculatorMore.included_spec in Hyin as (j & Hpos & Hj & Hweight).
    assert (Hij : (i ≤ j)%nat).
    { rewrite <- (Nat.add_0_l j), <- Hpos.
      apply (StronglySorted_lt_lookup
               (AbjadCalculator.position
                  <$> AbjadCalculatorFacts.included (loaderOf w) cleaned 0)).
      - apply AbjadCalculatorMore.included_sorted.
      - now rewrite list_lookup_fmap, Hy. }
    destruct (TextProcessorFacts.processNameInput_normal x false) as [_ Hall].
    fold cleaned in Hall. rewrite Forall_forall in Hall.
    destruct (Hall (AbjadCalculator.character y)) as [[Hdia Hvar] _];
      [now apply list_elem_of_lookup_2 in Hj|].
    unfold AbjadCalculatorFacts.weight in Hweight.
    destruct (DataLoader.abjadValues (loaderOf w)
                !! [AbjadCalculator.character y]) as [v|]; [| discriminate].
    destruct (Z.eqb_spec v 0); [discriminate|]. injection Hweight as <-.
    repeat split; try done. exists j. split; [done | lia].
Qed.

(** Every weight of the shipped table lies between 1 and 1000. *)
Lemma ABJAD_VALUES_range k v :
  ABJAD_VALUES !! k = Some v → 1 ≤ v ≤ 1000.
Proof.
  intros Hk. apply elem_of_list_to_map_2 in Hk.
  assert (Hall : Forall (fun kv => 1 ≤ kv.2 ≤ 1000) ABJAD_VALUES_entries)
    by (unfold ABJAD_VALUES_entries; repeat constructor; simpl; lia).
  rewrite Forall_forall in Hall. exact (Hall _ Hk).
Qed.

Lemma weights_range loader s :
  DataLoader.abjadValues loader = ABJAD_VALUES →
  Z.of_nat (length (AbjadCalculatorMore.weights loader s))
    ≤ AbjadCalculatorMore.sumZ (AbjadCalculatorMore.weights loader s)
    ≤ 1000 * Z.of_nat (length (AbjadCalculatorMore.weights loader s)).
Proof.
  intros Htable. unfold AbjadCalculatorMore.weights.
  induction s as [|c s IH]; simpl; [lia|].
  destruct (AbjadCalculatorFacts.weight loader c) as [v|] eqn:Hv; simpl;
    [| exact IH].
  unfold AbjadCalculatorFacts.weight in Hv. rewrite Htable in Hv.
  destruct (ABJAD_VALUES !! [c]) as [v'|] eqn:Hc; [| discriminate].
  apply ABJAD_VALUES_range in Hc.
  destruct (v' =? 0); [discriminate|]. injection Hv as <-.
  unfold omap in IH |- *. lia.
Qed.

(** X21. With the shipped weight table [ABJAD_VALUES] a calculated value
    is positive and bounded by the number of counted letters: the total lies
    between [charCount] and 1000 times [charCount]. *)
Theorem calculateAbjad_range (x : jsstring) (w w' : World) (c : Calculation) :
  DataLoader.abjadValues (loaderOf w) = ABJAD_VALUES →
  calculateAbjad (JString x) w = (Ret (CalcSuccess c), w') →
  0 < totalValue c
  ∧ Z.of_nat (charCount c) ≤ totalValue c ≤ 1000 * Z.of_nat (charCount c).
Proof.
  intros Htable (_ & _ & r & Hr & Hs & ->)%calculateAbjad_success.
  pose proof (AbjadCalculatorMore.calculateAbjadValue_string _ _ _ Hr)
    as (_ & Htotal & Hcount & _ & Hsucc & _).
  simpl. rewrite Htotal, Hcount.
  pose proof (weights_range (loaderOf w)
                (TextProcessor.processNameInput_string x false).1 Htable).
  rewrite Hs in Hsucc.
  destruct (Nat.eqb_spec
              (length (AbjadCalculatorMore.weights (loaderOf w)
                 (TextProcessor.processNameInput_string x false).1)) 0);
    [discriminate | lia].
Qed.

Lemma success_cleaned x b :
  TextProcessor.success (TextProcessor.processNameInput_string x b).2
  = negb (TextProcessorMore.isNil (TextProcessor.processNameInput_string x b).1).
Proof. now rewrite TextProcessorMore.processNameInput_report. Qed.

(** X22. The calculation depends on the cleaned text only: an argument
    with the same cleaned text as a successfully calculated one gets the
    same total, breakdown and count, and leaves the same state; this holds
    in particular for the cleaned text itself, which the normalizer leaves
    as it is. *)
Theorem calculateAbjad_cleaned_text (x : jsstring) (w w' : World)
    (c : Calculation) :
  calculateAbjad (JString x) w = (Ret (CalcSuccess c), w') →
  let cleaned := (TextProcessor.processNameInput_string x false).1 in
  (∀ y, (TextProcessor.processNameInput_string y false).1 = cleaned →
     calculateAbjad (JString y) w
     = (Ret (CalcSuccess
               (mkCalculation (totalValue c) (JString y) (cleanedName c)
                  (characterBreakdown c) (charCount c))), w'))
  ∧ (TextProcessor.processNameInput_string cleaned false).1 = cleaned.
Proof.
  intros (Hsx & -> & r & Hr & Hs & ->)%calculateAbjad_success cleaned.
  fold cleaned in Hr. split.
  - intros y Hy. subst cleaned. rewrite calculateAbjad_string. cbv zeta.
    rewrite success_cleaned, Hy, <- success_cleaned, Hsx, Hr.
    unfold respond. now rewrite Hs.
  - apply TextProcessorFacts.processNameInput_on_normal,
      TextProcessorFacts.processNameInput_normal.
Qed.

(** ** Searches *)





(** A matcher without value map finds no pair. *)
Lemma nameLoop_empty catalog abjadValue names st :
  NameMatcher.nameLoop catalog ∅ ∅ abjadValue names st = Ret st.
Proof.
  induction names as [|name1 rest IH]; simpl; [done|].
  destruct (num_sub abjadValue (abjad_value name1)); simpl; [done|].
  rewrite bool_decide_eq_false_2; [done | set_solver].
Qed.

Lemma findTwoNameCombination_empty self loader abjadValue limit :
  NameMatcher.valueToIds self = ∅ →
  NameMatcher.findTwoNameCombination self loader abjadValue limit
  = Ret (NameMatcher.mkPair false abjadValue 0 []).
Proof.
  intros Hempty. unfold NameMatcher.findTwoNameCombination.
  rewrite Hempty, dom_empty_L, nameLoop_empty. simpl.
  now rewrite take_nil.
Qed.

(** X24. A search made before the first start-up disables the pair search
    for good: the matcher it creates has an empty value map, no start-up
    replaces it, and every later search that is not answered by a direct
    match reports no pair, whatever the catalog. *)
Theorem early_search_disables_pairs (v0 v : jsval) (weights : gmap jsstring Z)
    (catalog : list DivineName) found target combinations count :
  given v0 →
  let w1 := (matchDivineNames v0 initialWorld).2 in
  let w2 := (initializeApp weights catalog w1).2 in
  (matchDivineNames v w2).1 = Ret (MatchPair found target combinations count) →
  found = false ∧ combinations = [] ∧ count = 0%nat
  ∧ DataLoader.divineNames (loaderOf w2) = catalog.
Proof.
  intros Hv0 w1 w2.
  assert (Hw2 : w2 = mkWorld
            (Some (DataLoader.loadAll DataLoader.new weights catalog
                     (buildNamesIndex catalog)))
            false (Some (NameMatcher.new DataLoader.new))).
  { unfold w2, w1. now rewrite (matchDivineNames_given _ _ Hv0). }
  assert (given v ∨ ¬ given v) as [Hv|Hv].
  { destruct v; [right | right | left | left];
      first [split; discriminate | intros [? ?]; congruence]. }
  - rewrite (matchDivineNames_given _ _ Hv). simpl. unfold respondMatch.
    destruct (NameMatcher.findMatch _ _ _) as [[d|p]|e] eqn:Hfind;
      try discriminate.
    intros [= <- <- <- <-].
    apply NameMatcherFacts.findMatch_pair in Hfind as [_ Hpair].
    rewrite findTwoNameCombination_empty in Hpair
      by now rewrite Hw2.
    injection Hpair as <-. simpl. now rewrite Hw2.
  - now rewrite (matchDivineNames_missing _ _ Hv).
Qed.

(** ** The page controller *)

Lemma trim_blank text :
  forallb TextProcessor.isWhiteSpace text = true → TextProcessor.trim text = [].
Proof.
  intros Hblank. unfold TextProcessor.trim.
  now rewrite (TextProcessorMore.trimStart_all_spaces text Hblank).
Qed.

Lemma handleCalculate_name value w :
  TextProcessor.trim value ≠ [] →
  handleCalculate value w
  = match calculateAbjad (JString (TextProcessor.trim value)) w with
    | (Ret (CalcFailure error), w') =>
        (Ret (showError
                (or_default error (lit "Failed to calculate Abjad value"))),
         w')
    | (Ret (CalcSuccess calc), w') =>
        match matchDivineNames (JNumber (Int (totalValue calc))) w' with
        | (Ret (MatchFailure error), w'') =>
            (Ret (displayCalculationThenError calc
                    (or_default error
                       (lit "Failed to find matching Divine Names"))), w'')
        | (Ret m, w'') => (Ret (displayResults calc m), w'')
        | (Throw error, w'') =>
            (Ret (showError (lit "An error occurred: " ++ message error)), w'')
        end
    | (Throw error, w') =>
        (Ret (showError (lit "An error occurred: " ++ message error)), w')
    end.
Proof.
  intros Hne. unfold handleCalculate.
  destruct (TextProcessor.trim value) as [|c name] eqn:Hname; [done|].
  unfold tryCatch, mbind, M_bind.
  destruct (calculateAbjad _ w) as [[[error|calc]|e] w']; try reflexivity.
  destruct (matchDivineNames _ w') as [[[error|f l n|f t l n]|e] w''];
    reflexivity.
Qed.


(** X26. [handleCalculate] always puts something on the page: it never
    throws; an input made of white space only is answered with "Please
    enter a name" and no call into the calculator; white space around the
    name makes no difference; and when the calculation fails, its error is
    shown and no search is made. *)
Theorem handleCalculate_total (value : jsstring) (w : World) :
  (∃ d, (handleCalculate value w).1 = Ret d)
  ∧ (forallb TextProcessor.isWhiteSpace value = true →
     handleCalculate value w = (Ret (showError (lit "Please enter a name")), w))
  ∧ handleCalculate (TextProcessor.trim value) w = handleCalculate value w
  ∧ (∀ error,
       (calculateAbjad (JString (TextProcessor.trim value)) w).1
         = Ret (CalcFailure error) →
       TextProcessor.trim value ≠ [] →
       (handleCalculate value w).1
         = Ret (showError
                  (or_default error (lit "Failed to calculate Abjad value")))
       ∧ _matcher (handleCalculate value w).2 = _matcher w).
Proof.
  split; [| split; [| split]].
  - destruct (TextProcessor.trim value) as [|c0 name] eqn:Hname.
    { unfold handleCalculate. rewrite Hname. now eexists. }
    rewrite handleCalculate_name by now rewrite Hname.
    destruct (calculateAbjad _ w) as [[[error|calc]|e] w'];
      try (now eexists).
    destruct (matchDivineNames _ w') as [[[error|f l n|f t l n]|e] w''];
      now eexists.
  - intros Hblank. unfold handleCalculate.
    now rewrite (trim_blank value Hblank).
  - unfold handleCalculate.
    now rewrite (TextProcessorFacts.trim_id _
                   (TextProcessorFacts.trim_trimmed value)).
  - intros error Hcalc Hne. rewrite handleCalculate_name by done.
    destruct (calculateAbjad _ w) as [[[error'|calc]|e] w'] eqn:Hc;
      simpl in Hcalc; try discriminate.
    injection Hcalc as ->. simpl. split; [done|].
    destruct (TextProcessor.trim value) as [|c0 name]; [done|].
    rewrite calculateAbjad_string in Hc. cbv zeta in Hc.
    destruct (TextProcessor.success _); injection Hc as _ <-; reflexivity.
Qed.

(** ** The [loaded] flag *)





End APIMore.

(* ====================================================================== *)
(** * Properties of the on-screen keyboard *)
(* ====================================================================== *)

Module KeyboardFacts.
Import Keyboard.

Lemma substring_prefix text n : substring text 0 n = take n text.
Proof.
  unfold substring. rewrite Nat.min_0_l, Nat.max_0_l, Nat.sub_0_r, drop_0.
  destruct (Nat.le_gt_cases n (length text)).
  - now rewrite Nat.min_l.
  - rewrite Nat.min_r by lia. now rewrite !take_ge by lia.
Qed.

Lemma substring_suffix text n : substring text n (length text) = drop n text.
Proof.
  unfold substring. rewrite Nat.min_id.
  rewrite Nat.max_r, (Nat.min_l (Nat.min _ _)) by lia.
  rewrite take_ge by (rewrite length_drop; lia).
  destruct (Nat.le_gt_cases n (length text)).
  - now rewrite Nat.min_l.
  - rewrite Nat.min_r by lia. now rewrite !drop_ge by lia.
Qed.

Lemma slice_prefix text n : slice text 0 n = take n text.
Proof.
  unfold slice. rewrite Nat.min_0_l, Nat.sub_0_r, drop_0.
  destruct (Nat.le_gt_cases n (length text)).
  - now rewrite Nat.min_l.
  - rewrite Nat.min_r by lia. now rewrite !take_ge by lia.
Qed.

Lemma slice_suffix text n : slice text n (length text) = drop n text.
Proof.
  unfold slice. rewrite Nat.min_id.
  rewrite take_ge by (rewrite length_drop; lia).
  destruct (Nat.le_gt_cases n (length text)).
  - now rewrite Nat.min_l.
  - rewrite Nat.min_r by lia. now rewrite !drop_ge by lia.
Qed.

Lemma or_default_nil text : or_default text [] = text.
Proof. now destruct text. Qed.

(** The caret is put at [n] when the text is long enough. *)
Lemma setSelectionRange_caret n text input :
  is_Some (selectionStart input) → (n ≤ length text)%nat →
  setSelectionRange n n (setValue text input) = mkInput text (Some n) (Some n).
Proof.
  intros [s Hs] Hn. unfold setSelectionRange, setValue.
  cbn [selectionStart selectionEnd value]. rewrite Hs.
  cbn [fmap option_fmap option_map].
  now rewrite !Nat.min_l by lia.
Qed.

Lemma length_edit (text char : jsstring) s e :
  (s ≤ e ≤ length text)%nat →
  length (take s text ++ char ++ drop e text)
  = (s + length char + (length text - e))%nat.
Proof. intros Hse. rewrite !length_app, length_take, length_drop. lia. Qed.

Lemma insertCharacter_selection char text s e :
  (s ≤ e ≤ length text)%nat →
  insertCharacter char (mkInput text (Some s) (Some e))
  = mkInput (take s text ++ char ++ drop e text)
      (Some (s + length char)%nat) (Some (s + length char)%nat).
Proof.
  intros Hse. unfold insertCharacter.
  cbn [selectionStart selectionEnd value default from_option id].
  rewrite or_default_nil, substring_prefix, substring_suffix.
  apply setSelectionRange_caret; [now eexists|].
  rewrite length_edit by done. lia.
Qed.

Lemma backspace_selection text s e :
  (s < e ≤ length text)%nat →
  backspace (mkInput text (Some s) (Some e))
  = mkInput (take s text ++ drop e text) (Some s) (Some s).
Proof.
  intros Hse. unfold backspace.
  cbn [selectionStart selectionEnd value default from_option id].
  destruct (Nat.eqb_spec s e) as [->|_]; [lia|].
  rewrite slice_prefix, slice_suffix.
  apply setSelectionRange_caret; [now eexists|].
  pose proof (length_edit text [] s e) as Hlen. simpl in Hlen. lia.
Qed.

Lemma backspace_caret text s :
  (S s ≤ length text)%nat →
  backspace (mkInput text (Some (S s)) (Some (S s)))
  = mkInput (take s text ++ drop (S s) text) (Some s) (Some s).
Proof.
  intros Hs. unfold backspace.
  cbn [selectionStart selectionEnd value default from_option id].
  rewrite Nat.eqb_refl. cbn [Nat.ltb Nat.leb]. rewrite Nat.sub_1_r.
  cbn [Nat.pred].
  rewrite slice_prefix, slice_suffix.
  apply setSelectionRange_caret; [now eexists|].
  rewrite !length_app, length_take, length_drop. lia.
Qed.

Lemma backspace_run (before after char : jsstring) :
  Nat.iter (length char) backspace
    (mkInput (before ++ char ++ after)
       (Some (length before + length char)%nat)
       (Some (length before + length char)%nat))
  = mkInput (before ++ after) (Some (length before)) (Some (length before)).
Proof.
  induction char as [|c char IH] using rev_ind.
  - simpl. now rewrite Nat.add_0_r.
  - rewrite length_app. simpl length.
    rewrite Nat.add_1_r, Nat.iter_succ_r, Nat.add_succ_r.
    rewrite backspace_caret
      by (rewrite !length_app; simpl; lia).
    rewrite <- IH. f_equal. f_equal.
    assert (Heq : before ++ (char ++ [c]) ++ after
                  = (before ++ char) ++ c :: after)
      by now rewrite <- !app_assoc.
    rewrite Heq, <- length_app, take_app_length.
    rewrite (cons_middle c (before ++ char) after), app_assoc.
    replace (S (length (before ++ char)))
      with (length ((before ++ char) ++ [c]))
      by (rewrite (length_app _ [c]); simpl; lia).
    rewrite drop_app_length. now rewrite <- app_assoc.
Qed.

(** X27. Backspace undoes a key press: with the caret at a position of
    the text and nothing selected, inserting a character, or a text of any
    length, and pressing Backspace once for each of its code units gives the
    text and the caret back. *)
Theorem backspace_undoes_insertCharacter (char text : jsstring) (s : nat) :
  (s ≤ length text)%nat →
  Nat.iter (length char) backspace
    (insertCharacter char (mkInput text (Some s) (Some s)))
  = mkInput text (Some s) (Some s).
Proof.
  intros Hs. rewrite insertCharacter_selection by lia.
  pose proof (backspace_run (take s text) (drop s text) char) as Hrun.
  rewrite length_take, Nat.min_l, take_drop in Hrun by lia.
  exact Hrun.
Qed.

(** X28. Typing over a selection is deleting it and then typing: with a
    non-empty selection Backspace removes exactly the selected text and puts
    the caret where it began, [insertCharacter] puts the character in place
    of the selected text with the caret after it, and doing the first and
    then the second gives the same field as the second alone. *)
Theorem insertCharacter_over_selection (char text : jsstring) (s e : nat) :
  (s < e ≤ length text)%nat →
  let input := mkInput text (Some s) (Some e) in
  backspace input = mkInput (take s text ++ drop e text) (Some s) (Some s)
  ∧ insertCharacter char input
    = mkInput (take s text ++ char ++ drop e text)
        (Some (s + length char)%nat) (Some (s + length char)%nat)
  ∧ insertCharacter char (backspace input) = insertCharacter char input.
Proof.
  intros Hse input. unfold input.
  rewrite backspace_selection, !insertCharacter_selection; try lia.
  - repeat split.
    rewrite take_app_le, take_take, Nat.min_id
      by (rewrite length_take; lia).
    rewrite drop_app_ge by (rewrite length_take; lia).
    rewrite length_take, Nat.min_l, Nat.sub_diag by lia. reflexivity.
  - rewrite length_app, length_take, length_drop. lia.
Qed.


End KeyboardFacts.

(* ====================================================================== *)
(** * The theorems at the sample data *)
(* ====================================================================== *)

Module Instances.
Import Catalog Sample APIFacts.


(** Why the ids must be unique: in [catalog5] the id 2 is carried by T (5)
    and by Q (26); the pair search pairs P (40) with the id 2 for 66, and
    then reads the entry of id 2 back as T. *)
Lemma shared_id_is_read_back_as_first_entry :
  (matchDivineNames (JNumber (Int 66)) started5).1
  = Ret (MatchPair true (Int 66) [NameMatcher.mkCombination P T (Int 66)] 1).
Proof. vm_compute. reflexivity. Qed.

(** Scenario C: two entries of value 66 are both listed for 66. *)
Lemma direct_match_priority_at_66 :
  let self := matcherOf started3 in
  let loader := loaderOf started3 in
  DataLoader.namesIndex loader !! String_of_number (Int 66) = Some [G; H]
  ∧ [G; H] ≠ []
  ∧ NameMatcher.findMatch self loader (Int 66)
    = Ret (NameMatcher.direct_match
             (NameMatcher.mkDirect true (Int 66) 2 [G; H])).
Proof.
  intros self loader.
  assert (H1 : DataLoader.namesIndex loader !! String_of_number (Int 66)
               = Some [G; H]) by (vm_compute; reflexivity).
  assert (H2 : [G; H] ≠ []) by discriminate.
  split; [exact H1|]. split; [exact H2|].
  exact (proj1 (NameMatcherFacts.direct_match_priority self loader (Int 66)
                  [G; H] H1 H2)).
Defined.

(** The two pairs for 66 in [catalog4] are different pairs. *)
Lemma pair_search_unique_at_66 :
  let self := matcherOf started4 in
  let loader := loaderOf started4 in
  let c1 := NameMatcher.mkCombination P Q (Int 66) in
  let c2 := NameMatcher.mkCombination R S (Int 66) in
  let r := NameMatcher.mkPair true (Int 66) 2 [c1; c2] in
  NameMatcher.findMatch self loader (Int 66)
    = Ret (NameMatcher.two_name_combination r)
  ∧ NameMatcher.combinations r !! 0%nat = Some c1
  ∧ NameMatcher.combinations r !! 1%nat = Some c2
  ∧ 0%nat ≠ 1%nat
  ∧ ¬ NameMatcherFacts.sameUnorderedPair c1 c2.
Proof.
  intros self loader c1 c2 r.
  assert (H1 : NameMatcher.findMatch self loader (Int 66)
               = Ret (NameMatcher.two_name_combination r))
    by (vm_compute; reflexivity).
  assert (H2 : NameMatcher.combinations r !! 0%nat = Some c1) by reflexivity.
  assert (H3 : NameMatcher.combinations r !! 1%nat = Some c2) by reflexivity.
  assert (H4 : 0%nat ≠ 1%nat) by discriminate.
  split; [exact H1|]. split; [exact H2|]. split; [exact H3|].
  split; [exact H4|].
  exact (NameMatcherFacts.pair_search_unique self loader (Int 66) r H1
           0%nat 1%nat c1 c2 H2 H3 H4).
Defined.




(** A name that passes the normalizer, before any start-up. *)
Lemma no_entry_point_throws_at_ALH :
  size (DataLoader.abjadValues (loaderOf initialWorld)) = 0%nat
  ∧ TextProcessor.success
      (TextProcessor.processNameInput_string ALH false).2 = true
  ∧ (calculateAbjad (JString ALH) initialWorld).1
    = Ret (CalcFailure (lit "Abjad values not loaded. Call loadAll() first.")).
Proof.
  assert (H1 : size (DataLoader.abjadValues (loaderOf initialWorld)) = 0%nat)
    by reflexivity.
  assert (H2 : TextProcessor.success
                 (TextProcessor.processNameInput_string ALH false).2 = true)
    by (vm_compute; reflexivity).
  split; [exact H1|]. split; [exact H2|].
  exact (proj1 (proj2 (proj2 no_entry_point_throws)) ALH initialWorld H1 H2).
Defined.



End Instances.

(* ====================================================================== *)
(** * More theorems at the sample data *)
(* ====================================================================== *)

Module MoreInstances.
Import Catalog Sample APIFacts.

Definition FATHA : N := 0x064E%N.

(** alef with a fatha, lam, heh; and heh, lam, alef. *)
Definition ALH_marked : jsstring := [ALEF; FATHA; LAM; HEH].

(** A start-up with the shipped weights and [catalog4]. *)
Definition shipped : World :=
  (initializeApp ABJAD_VALUES catalog4 initialWorld).2.

Definition result_ALH : AbjadCalculator.CalculationResult :=
  AbjadCalculator.mkResult true 36 (JString ALH)
    [AbjadCalculator.mkRecord ALEF 1 0; AbjadCalculator.mkRecord LAM 30 1;
     AbjadCalculator.mkRecord HEH 5 2] 3 [] [].

Definition calc_ALH (x : jsstring) : Calculation :=
  mkCalculation 36 (JString x) (JString ALH)
    [mkItem 1 ALEF 1; mkItem 2 LAM 30; mkItem 3 HEH 5] 3.

Definition pairs_66 : NameMatcher.PairResult :=
  NameMatcher.mkPair true (Int 66) 2
    [NameMatcher.mkCombination P Q (Int 66);
     NameMatcher.mkCombination R S (Int 66)].

Lemma calculateAbjadValue_accounts_at_ALH :
  let loader := loaderOf started in
  AbjadCalculator.calculateAbjadValue loader (JString ALH) = Ret result_ALH
  ∧ (length (AbjadCalculator.warnings result_ALH)
     + length (AbjadCalculator.characterBreakdown result_ALH)
     = length ALH)%nat.
Proof.
  intros loader.
  assert (H1 : AbjadCalculator.calculateAbjadValue loader (JString ALH)
               = Ret result_ALH) by (vm_compute; reflexivity).
  split; [exact H1|].
  exact (proj1 (AbjadCalculatorMore.calculateAbjadValue_accounts loader ALH
                  result_ALH H1)).
Defined.




Lemma findTwoNameCombination_sorted_at_66 :
  let self := matcherOf started4 in
  let loader := loaderOf started4 in
  NameMatcher.findTwoNameCombination self loader (Int 66) 10 = Ret pairs_66
  ∧ StronglySorted NameMatcherMore.idsLe (NameMatcher.combinations pairs_66).
Proof.
  intros self loader.
  assert (H1 : NameMatcher.findTwoNameCombination self loader (Int 66) 10
               = Ret pairs_66) by (vm_compute; reflexivity).
  split; [exact H1|].
  exact (proj1 (NameMatcherMore.findTwoNameCombination_sorted self loader
                  (Int 66) 10 pairs_66 H1)).
Defined.


Lemma pair_search_lists_every_pair_at_Q_P :
  let self := matcherOf started4 in
  let loader := loaderOf started4 in
  NameMatcher.valueToIds self
    = NameMatcher._buildValueMap (DataLoader.divineNames loader)
  ∧ NoDup (id <$> DataLoader.divineNames loader)
  ∧ NameMatcher.findTwoNameCombination self loader (Int 66) 10 = Ret pairs_66
  ∧ (NameMatcher.pcount pairs_66 < 10)%nat
  ∧ Q ∈ DataLoader.divineNames loader
  ∧ P ∈ DataLoader.divineNames loader
  ∧ id Q ≠ id P
  ∧ abjad_value Q + abjad_value P = 66
  ∧ ∃ c, c ∈ NameMatcher.combinations pairs_66
         ∧ ((NameMatcher.name1 c = Q ∧ NameMatcher.name2 c = P)
            ∨ (NameMatcher.name1 c = P ∧ NameMatcher.name2 c = Q)).
Proof.
  intros self loader.
  assert (H1 : NameMatcher.valueToIds self
               = NameMatcher._buildValueMap (DataLoader.divineNames loader))
    by (vm_compute; reflexivity).
  assert (H2 : NoDup (id <$> DataLoader.divineNames loader))
    by (apply (bool_decide_unpack _); vm_compute; exact I).
  assert (H3 : NameMatcher.findTwoNameCombination self loader (Int 66) 10
               = Ret pairs_66) by (vm_compute; reflexivity).
  assert (H4 : (NameMatcher.pcount pairs_66 < 10)%nat) by (simpl; lia).
  assert (H5 : Q ∈ DataLoader.divineNames loader)
    by (apply (bool_decide_unpack _); vm_compute; exact I).
  assert (H6 : P ∈ DataLoader.divineNames loader)
    by (apply (bool_decide_unpack _); vm_compute; exact I).
  assert (H7 : id Q ≠ id P) by discriminate.
  assert (H8 : abjad_value Q + abjad_value P = 66) by reflexivity.
  split; [exact H1|]. split; [exact H2|]. split; [exact H3|].
  split; [exact H4|]. split; [exact H5|]. split; [exact H6|].
  split; [exact H7|]. split; [exact H8|].
  exact (NameMatcherMore.pair_search_lists_every_pair self loader 66 10
           pairs_66 Q P H1 H2 H3 H4 H5 H6 H7 H8).
Defined.


Lemma calculateAbjad_letters_at_ALH_marked :
  let w' := (calculateAbjad (JString ALH_marked) started).2 in
  calculateAbjad (JString ALH_marked) started
    = (Ret (CalcSuccess (calc_ALH ALH_marked)), w')
  ∧ (1 ≤ charCount (calc_ALH ALH_marked)
     ≤ length (TextProcessor.processNameInput_string ALH_marked false).1)%nat.
Proof.
  intros w'.
  assert (H1 : calculateAbjad (JString ALH_marked) started
               = (Ret (CalcSuccess (calc_ALH ALH_marked)), w'))
    by (vm_compute; reflexivity).
  split; [exact H1|].
  exact (proj1 (proj2 (proj2 (APIMore.calculateAbjad_letters ALH_marked
                                started w' (calc_ALH ALH_marked) H1)))).
Defined.

Lemma calculateAbjad_range_at_ALH :
  let w' := (calculateAbjad (JString ALH) shipped).2 in
  DataLoader.abjadValues (loaderOf shipped) = ABJAD_VALUES
  ∧ calculateAbjad (JString ALH) shipped
    = (Ret (CalcSuccess (calc_ALH ALH)), w')
  ∧ 0 < totalValue (calc_ALH ALH)
  ∧ Z.of_nat (charCount (calc_ALH ALH)) ≤ totalValue (calc_ALH ALH)
    ≤ 1000 * Z.of_nat (charCount (calc_ALH ALH)).
Proof.
  intros w'.
  assert (H1 : DataLoader.abjadValues (loaderOf shipped) = ABJAD_VALUES)
    by reflexivity.
  assert (H2 : calculateAbjad (JString ALH) shipped
               = (Ret (CalcSuccess (calc_ALH ALH)), w'))
    by (vm_compute; reflexivity).
  split; [exact H1|]. split; [exact H2|].
  exact (APIMore.calculateAbjad_range ALH shipped w' (calc_ALH ALH) H1 H2).
Defined.

Lemma calculateAbjad_cleaned_text_at_ALH :
  let w' := (calculateAbjad (JString ALH_marked) started).2 in
  let c := calc_ALH ALH_marked in
  calculateAbjad (JString ALH_marked) started = (Ret (CalcSuccess c), w')
  ∧ (TextProcessor.processNameInput_string ALH false).1
    = (TextProcessor.processNameInput_string ALH_marked false).1
  ∧ calculateAbjad (JString ALH) started
    = (Ret (CalcSuccess
              (mkCalculation (totalValue c) (JString ALH) (cleanedName c)
                 (characterBreakdown c) (charCount c))), w').
Proof.
  intros w' c.
  assert (H1 : calculateAbjad (JString ALH_marked) started
               = (Ret (CalcSuccess c), w')) by (vm_compute; reflexivity).
  assert (H2 : (TextProcessor.processNameInput_string ALH false).1
               = (TextProcessor.processNameInput_string ALH_marked false).1)
    by (vm_compute; reflexivity).
  split; [exact H1|]. split; [exact H2|].
  exact (proj1 (APIMore.calculateAbjad_cleaned_text ALH_marked started w' c
                  H1) ALH H2).
Defined.


Lemma early_search_disables_pairs_at_30 :
  let w1 := (matchDivineNames (JNumber (Int 66)) initialWorld).2 in
  let w2 := (initializeApp weights catalog2 w1).2 in
  given (JNumber (Int 66))
  ∧ (matchDivineNames (JNumber (Int 30)) w2).1
    = Ret (MatchPair false (Int 30) [] 0)
  ∧ false = false ∧ [] = @nil NameMatcher.Combination ∧ 0%nat = 0%nat
  ∧ DataLoader.divineNames (loaderOf w2) = catalog2.
Proof.
  intros w1 w2.
  assert (H1 : given (JNumber (Int 66))) by (split; discriminate).
  assert (H2 : (matchDivineNames (JNumber (Int 30)) w2).1
               = Ret (MatchPair false (Int 30) [] 0))
    by (vm_compute; reflexivity).
  split; [exact H1|]. split; [exact H2|].
  exact (APIMore.early_search_disables_pairs (JNumber (Int 66))
           (JNumber (Int 30)) weights catalog2 false (Int 30) [] 0%nat H1 H2).
Defined.


Lemma backspace_undoes_insertCharacter_at_ALH :
  let input := Keyboard.mkInput ALH (Some 1%nat) (Some 1%nat) in
  (1 ≤ length ALH)%nat
  ∧ Nat.iter (length [ALEF; LAM]) Keyboard.backspace
      (Keyboard.insertCharacter [ALEF; LAM] input)
    = input.
Proof.
  intros input.
  assert (H1 : (1 ≤ length ALH)%nat) by (simpl; lia).
  split; [exact H1|].
  exact (KeyboardFacts.backspace_undoes_insertCharacter [ALEF; LAM] ALH 1 H1).
Defined.

Lemma insertCharacter_over_selection_at_ALH :
  let input := Keyboard.mkInput ALH (Some 1%nat) (Some 3%nat) in
  (1 < 3 ≤ length ALH)%nat
  ∧ Keyboard.insertCharacter [BEH] (Keyboard.backspace input)
    = Keyboard.insertCharacter [BEH] input.
Proof.
  intros input.
  assert (H1 : (1 < 3 ≤ length ALH)%nat) by (simpl; lia).
  split; [exact H1|].
  exact (proj2 (proj2 (KeyboardFacts.insertCharacter_over_selection [BEH] ALH
                         1 3 H1))).
Defined.

End MoreInstances.
